(** * NSE pre-open data: scraper pipeline and read API

    A shallow embedding of
    - [script.ts]: [uploadToR2] and [run] (the scraper pipeline),
    - [src/api/rate-limiter.ts]: [RateLimiter.fetch],
    - [src/api/index.ts]: the rate-limiting middleware and the
      [/api/dates] handler,
    together with the properties of these functions.

    Integers of the program (epoch milliseconds, counts, query numbers)
    are modelled as [Z], strings as [string], the bucket as the list of
    its keys and the namespace of limiters as a finite map. The effects of
    the scraper are a trace of calls and console lines with exceptions;
    what the browser, the file system, the store and the clock answer is
    a parameter of the run. The definitions come first, the properties
    after them. *)

From Stdlib Require Import ZArith Lia List Ascii String Bool.
From stdpp Require Import base list strings gmap pretty sorting.

Local Open Scope Z_scope.

(** ** JavaScript runtime pieces used by the program *)

Module Js.

(** Truthiness of a value of type [string | undefined]:
    [undefined] and the empty string are falsy. *)
Definition truthy (v : option string) : bool :=
  match v with
  | None => false
  | Some s => negb (String.eqb s "")
  end.

(** [a || b] on strings: the left operand unless it is falsy. *)
Definition or_else (a : option string) (b : string) : string :=
  match a with
  | Some s => if String.eqb s "" then b else s
  | None => b
  end.

(** [String.prototype.endsWith]. *)
Definition endsWith (s suffix : string) : bool :=
  String.prefix (String.rev suffix) (String.rev s).

(** [s.split(c)[0]]: the part of [s] before the first [c]
    (all of [s] when [c] does not occur). *)
Fixpoint split_head (c : ascii) (s : string) : string :=
  match s with
  | EmptyString => EmptyString
  | String a s' => if Ascii.eqb a c then EmptyString else String a (split_head c s')
  end.

(** One decimal digit. *)
Definition digit_char (d : Z) : ascii :=
  match d with
  | 0 => "0" | 1 => "1" | 2 => "2" | 3 => "3" | 4 => "4"
  | 5 => "5" | 6 => "6" | 7 => "7" | 8 => "8" | _ => "9"
  end%char.

(** The [w] low decimal digits of [n], most significant first
    (zero padded). *)
Fixpoint pad_digits (w : nat) (n : Z) : string :=
  match w with
  | O => EmptyString
  | S w' => String (digit_char ((n / 10 ^ Z.of_nat w') mod 10)) (pad_digits w' n)
  end.

(** *** Dates: [Date.prototype.toISOString] (ECMAScript 21.4.4.36)

    A [Date] is its time value, milliseconds since the epoch, UTC. *)

Definition msPerDay : Z := 86400000.

(** [Day(t)] and [TimeWithinDay(t)]. *)
Definition Day (t : Z) : Z := t / msPerDay.
Definition TimeWithinDay (t : Z) : Z := t mod msPerDay.

(** Year, month (1..12) and day of month (1..31) of a day number, in the
    proleptic Gregorian calendar, by eras of 400 years that start on
    March 1st. *)
Definition civil_from_days (z : Z) : Z * Z * Z :=
  let z := z + 719468 in
  let era := z / 146097 in
  let doe := z - era * 146097 in
  let yoe := (doe - doe / 1460 + doe / 36524 - doe / 146096) / 365 in
  let doy := doe - (365 * yoe + yoe / 4 - yoe / 100) in
  let mp := (5 * doy + 2) / 153 in
  let d := doy - (153 * mp + 2) / 5 + 1 in
  let m := if mp <? 10 then mp + 3 else mp - 9 in
  let y := yoe + era * 400 in
  (if m <=? 2 then y + 1 else y, m, d).

(** The year part: four digits for years 0..9999, otherwise a sign and
    six digits. *)
Definition year_string (y : Z) : string :=
  if (0 <=? y) && (y <=? 9999) then pad_digits 4 y
  else if y <? 0 then String "-" (pad_digits 6 (- y))
  else String "+" (pad_digits 6 y).

(** [YYYY-MM-DD]. *)
Definition date_string (t : Z) : string :=
  let '(y, m, d) := civil_from_days (Day t) in
  year_string y +:+ "-" +:+ pad_digits 2 m +:+ "-" +:+ pad_digits 2 d.

(** [HH:mm:ss.sss]. *)
Definition time_string (t : Z) : string :=
  let ms := TimeWithinDay t in
  pad_digits 2 (ms / 3600000) +:+ ":" +:+
  pad_digits 2 (ms / 60000 mod 60) +:+ ":" +:+
  pad_digits 2 (ms / 1000 mod 60) +:+ "." +:+
  pad_digits 3 (ms mod 1000).

Definition toISOString (t : Z) : string :=
  date_string t +:+ "T" +:+ time_string t +:+ "Z".

End Js.

(** ** Node's [path.join] (posix), as far as the program uses it *)

Module Path.

(** [s.split(c)]. *)
Fixpoint split_on (c : ascii) (s : string) : list string :=
  match s with
  | EmptyString => [EmptyString]
  | String a s' =>
      if Ascii.eqb a c then EmptyString :: split_on c s'
      else match split_on c s' with
           | seg :: segs => String a seg :: segs
           | [] => [String a EmptyString]
           end
  end.

(** Segment normalisation: [.] and empty segments vanish, [..] removes
    the segment before it (and stays when there is none to remove).
    The stack holds the segments seen so far, last one first. *)
Fixpoint normalize_go (stack segs : list string) : list string :=
  match segs with
  | [] => rev stack
  | seg :: segs' =>
      if String.eqb seg "" || String.eqb seg "." then normalize_go stack segs'
      else if String.eqb seg ".." then
        match stack with
        | top :: stack' =>
            if String.eqb top ".." then normalize_go (seg :: stack) segs'
            else normalize_go stack' segs'
        | [] => normalize_go [seg] segs'
        end
      else normalize_go (seg :: stack) segs'
  end.

Fixpoint join_with (sep : string) (segs : list string) : string :=
  match segs with
  | [] => ""
  | [seg] => seg
  | seg :: segs' => seg +:+ sep +:+ join_with sep segs'
  end.

(** [path.join(a, b)] for a relative [a]. *)
Definition join (a b : string) : string :=
  let joined := if String.eqb b "" then a else a +:+ "/" +:+ b in
  match normalize_go [] (split_on "/" joined) with
  | [] => "."
  | segs => join_with "/" segs
  end.

(** [path.basename]. *)
Definition basename (p : string) : string :=
  List.last (split_on "/" p) "".

End Path.

(** ** Effects: a trace of calls and log lines, and exceptions

    Every [await]ed call of the program either returns or throws. A
    computation yields the trace of what it did and either a value or the
    message of the exception that escaped it. *)

Module Eff.

Record PutObjectCommand := {
  Bucket : string;
  Key : string;
  Body : list Byte.byte;
  ContentType : string;
  Metadata : list (string * string)
}.

(** The calls the program makes on the browser, the file system and the
    object store. *)
Inductive op :=
| EnsureDirs
| Launch | NewContext | NewPage
| Goto (url : string) (timeout : Z)
| WaitForTimeout (ms : Z)
| Screenshot (path : string)
| Title
| WaitForSelector (selector : string) (timeout : Z)
| Click (selector : string)
| SelectOption (selector value : string)
| IsVisible (locator : string)
| WaitForEvent (name : string)     (* arms the listener, returns a promise *)
| ClickLocator (locator : string)
| AwaitEvent (name : string)       (* awaits the promise of the listener *)
| SaveAs (path : string)
| ReadFile (path : string)
| Send (command : PutObjectCommand)
| PageUrl
| BrowserClose.

(** A call with whether it returned ([true]) or threw ([false]), or a
    line on the console. *)
Inductive event :=
| Call (o : op) (ok : bool)
| Log (args : list string)
| LogError (args : list string).

Inductive result (A : Type) :=
| Ok (a : A)
| Throw (message : string).
Arguments Ok {A} a.
Arguments Throw {A} message.

Definition M (A : Type) : Type := list event * result A.

Definition trace {A} (m : M A) : list event := m.1.
Definition outcome {A} (m : M A) : result A := m.2.

Definition ret {A} (a : A) : M A := ([], Ok a).

Definition bind {A B} (m : M A) (k : A -> M B) : M B :=
  match m with
  | (t, Ok a) => let '(t', r) := k a in (t ++ t', r)
  | (t, Throw e) => (t, Throw e)
  end.

(** [try { m } catch (e) { h e }]. *)
Definition try_catch {A} (m : M A) (h : string -> M A) : M A :=
  match m with
  | (t, Ok a) => (t, Ok a)
  | (t, Throw e) => let '(t', r) := h e in (t ++ t', r)
  end.

(** [try { m } finally { fin }]: [fin] always runs; an exception of
    [fin] replaces the outcome of [m]. *)
Definition try_finally {A} (m : M A) (fin : M unit) : M A :=
  let '(t, r) := m in
  match fin with
  | (t', Ok _) => (t ++ t', r)
  | (t', Throw e) => (t ++ t', Throw e)
  end.

(** A call that returns nothing. *)
Definition call (o : op) (ok : bool) : M unit :=
  ([Call o ok], if ok then Ok tt else Throw "call failed").

(** A call that returns a value, or throws when there is none. *)
Definition call_val {A} (o : op) (r : option A) : M A :=
  match r with
  | Some a => ([Call o true], Ok a)
  | None => ([Call o false], Throw "call failed")
  end.

Definition log (args : list string) : M unit := ([Log args], Ok tt).
Definition log_error (args : list string) : M unit := ([LogError args], Ok tt).

End Eff.

Import Eff.

Notation "x <- m ;; k" := (Eff.bind m (fun x => k))
  (at level 100, m at next level, right associativity, only parsing).
Notation "m ;; k" := (Eff.bind m (fun _ => k))
  (at level 100, right associativity, only parsing).

(** ** [script.ts] *)

Module Scraper.

Definition TARGET_URL : string :=
  "https://www.nseindia.com/market-data/pre-open-market-cm-and-emerge-market".
Definition SCREENSHOT_PATH : string := "./screenshots/pre-open-market.png".
Definition DOWNLOADS_PATH : string := "./downloads".
Definition AFTER_DOWNLOAD_PATH : string := "./screenshots/after-download.png".
Definition ERROR_STATE_PATH : string := "./screenshots/error-state.png".
Definition ERROR_PAGE_PATH : string := "./screenshots/error-page.png".
Definition CATEGORY_SELECTOR : string := "#sel-Pre-Open-Market".
Definition CSV_LOCATOR : string := "text=Download (.csv)".

(** What the outside world does during one run: the process
    environment, the answer of every call, and the clock at each place
    where the program reads it. *)
Record World := {
  R2_BUCKET_NAME : option string;
  R2_ACCESS_KEY_ID : option string;
  R2_SECRET_ACCESS_KEY : option string;
  dirs_ok : bool;
  launch_ok : bool;
  newContext_ok : bool;
  newPage_ok : bool;
  goto_ok : bool;
  settle_load_ok : bool;
  shot_initial_ok : bool;
  page_title : option string;
  selector_ok : bool;
  click_dropdown_ok : bool;
  settle_open_ok : bool;
  selectOption_ok : bool;
  settle_data_ok : bool;
  csv_visible : option bool;
  click_csv_ok : bool;
  (** the suggested file name of the download, when the event comes *)
  download : option string;
  (** [Date.now()] where the local path is built *)
  now_path : Z;
  saveAs_ok : bool;
  (** [Date.now()] where the file name of the upload is built *)
  now_name : Z;
  file_content : option (list Byte.byte);
  (** [new Date()] where the key is built, and where the metadata is *)
  now_key : Z;
  now_meta : Z;
  send_ok : bool;
  shot_after_ok : bool;
  shot_error_state_ok : bool;
  page_url : option string;
  shot_error_page_ok : bool;
  close_ok : bool
}.

Definition R2_BUCKET (w : World) : string :=
  Js.or_else (R2_BUCKET_NAME w) "nse-data".

Definition SKIP_NOTICE : string := "R2 credentials not found - skipping upload".

(** The key under which [uploadToR2] stores [fileName] at time [now]. *)
Definition storage_key (now : Z) (fileName : string) : string :=
  let timestamp := Js.split_head "T" (Js.toISOString now) in
  "nse-preopen/" +:+ timestamp +:+ "/" +:+ fileName.

Definition put_command (w : World) (fileContent : list Byte.byte)
    (fileName : string) : PutObjectCommand :=
  {| Bucket := R2_BUCKET w;
     Key := storage_key (now_key w) fileName;
     Body := fileContent;
     ContentType :=
       if Js.endsWith fileName ".csv" then "text/csv"
       else "application/octet-stream";
     Metadata :=
       [("source", "nse-scraper");
        ("scraped-at", Js.toISOString (now_meta w));
        ("file-size", pretty (length fileContent))] |}.

Definition uploadToR2 (w : World) (filePath fileName : string) : M bool :=
  try_catch
    (if negb (Js.truthy (R2_ACCESS_KEY_ID w))
        || negb (Js.truthy (R2_SECRET_ACCESS_KEY w))
     then
       log [SKIP_NOTICE] ;;
       ret false
     else
       log ["Uploading " +:+ fileName +:+ " to Cloudflare R2..."] ;;
       fileContent <- call_val (ReadFile filePath) (file_content w) ;;
       let command := put_command w fileContent fileName in
       call (Send command) (send_ok w) ;;
       log ["Successfully uploaded to R2: " +:+ Key command] ;;
       ret true)
    (fun message =>
       log_error ["Failed to upload to R2:"; message] ;;
       ret false).

(** The file name used when the download suggests none. *)
Definition synthesized_name (now : Z) : string :=
  "pre-open-data-" +:+ pretty now +:+ ".csv".

(** [download.suggestedFilename() || `pre-open-data-${Date.now()}.csv`]
    where the local path is built. *)
Definition saved_name (w : World) (suggestedFilename : string) : string :=
  Js.or_else (Some suggestedFilename) (synthesized_name (now_path w)).

(** The same expression where the file name of the upload is built: the
    clock is read again. *)
Definition upload_name (w : World) (suggestedFilename : string) : string :=
  Js.or_else (Some suggestedFilename) (synthesized_name (now_name w)).

(** The body of the [if (await csvButton.isVisible())] branch. *)
Definition capture_and_archive (w : World) : M unit :=
  log ["Found CSV download button, clicking..."] ;;
  call (WaitForEvent "download") true ;;
  call (ClickLocator CSV_LOCATOR) (click_csv_ok w) ;;
  suggestedFilename <- call_val (AwaitEvent "download") (download w) ;;
  log ["Download started: " +:+ suggestedFilename] ;;
  let downloadPath := Path.join DOWNLOADS_PATH (saved_name w suggestedFilename) in
  call (SaveAs downloadPath) (saveAs_ok w) ;;
  log ["CSV file downloaded to: " +:+ downloadPath] ;;
  let fileName := upload_name w suggestedFilename in
  _ <- uploadToR2 w downloadPath fileName ;;
  call (Screenshot AFTER_DOWNLOAD_PATH) (shot_after_ok w).

(** The inner [try] block. *)
Definition select_and_download (w : World) : M unit :=
  call (WaitForSelector CATEGORY_SELECTOR 15000) (selector_ok w) ;;
  log ["Found Category dropdown, selecting 'All'..."] ;;
  call (Click CATEGORY_SELECTOR) (click_dropdown_ok w) ;;
  call (WaitForTimeout 2000) (settle_open_ok w) ;;
  call (SelectOption CATEGORY_SELECTOR "ALL") (selectOption_ok w) ;;
  log ["Selected 'All' category"] ;;
  call (WaitForTimeout 3000) (settle_data_ok w) ;;
  log ["Looking for CSV download option..."] ;;
  visible <- call_val (IsVisible CSV_LOCATOR) (csv_visible w) ;;
  if visible : bool then capture_and_archive w
  else log ["CSV download button not found"].

(** The [catch (selectorError)] handler. *)
Definition selector_handler (w : World) (message : string) : M unit :=
  log ["Could not find Category dropdown or CSV button:"; message] ;;
  call (Screenshot ERROR_STATE_PATH) (shot_error_state_ok w).

(** The outer [try] block. *)
Definition extract (w : World) : M unit :=
  log ["Navigating to " +:+ TARGET_URL] ;;
  call (Goto TARGET_URL 30000) (goto_ok w) ;;
  log ["Waiting for page to load completely..."] ;;
  call (WaitForTimeout 8000) (settle_load_ok w) ;;
  log ["Taking initial screenshot..."] ;;
  call (Screenshot SCREENSHOT_PATH) (shot_initial_ok w) ;;
  title <- call_val Title (page_title w) ;;
  log ["Page title:"; title] ;;
  log ["Looking for Category dropdown..."] ;;
  try_catch (select_and_download w) (selector_handler w) ;;
  log ["Pre-open market data extraction completed"].

Definition AUTOMATION_ERROR : string := "Error during automation:".

(** The [catch (err)] handler. *)
Definition error_handler (w : World) (message : string) : M unit :=
  log_error [AUTOMATION_ERROR; message] ;;
  try_catch
    (currentUrl <- call_val PageUrl (page_url w) ;;
     log ["Current URL at error:"; currentUrl] ;;
     call (Screenshot ERROR_PAGE_PATH) (shot_error_page_ok w))
    (fun _ => log ["Could not take error screenshot"]).

(** The [finally] block. *)
Definition release (w : World) : M unit :=
  call BrowserClose (close_ok w) ;;
  log ["Browser closed"].

(** The [try]/[catch] of [run], before the [finally]. *)
Definition guarded (w : World) : M unit :=
  try_catch (extract w) (error_handler w).

Definition run (w : World) : M unit :=
  call EnsureDirs (dirs_ok w) ;;
  log ["Launching browser in headed mode..."] ;;
  call Launch (launch_ok w) ;;
  call NewContext (newContext_ok w) ;;
  call NewPage (newPage_ok w) ;;
  try_finally (guarded w) (release w).

(** A world in which every call succeeds, but for the navigation and the
    wait for the control, which answer as given; [secret] is the secret
    access key of the environment and [suggested] the file name the
    download suggests. *)
Definition sample_world (secret : option string) (goto selector : bool)
    (suggested : string) : World :=
  {| R2_BUCKET_NAME := None;
     R2_ACCESS_KEY_ID := Some "id";
     R2_SECRET_ACCESS_KEY := secret;
     dirs_ok := true; launch_ok := true; newContext_ok := true;
     newPage_ok := true; goto_ok := goto; settle_load_ok := true;
     shot_initial_ok := true; page_title := Some "NSE";
     selector_ok := selector; click_dropdown_ok := true;
     settle_open_ok := true; selectOption_ok := true;
     settle_data_ok := true; csv_visible := Some true;
     click_csv_ok := true; download := Some suggested;
     now_path := 1727149200000; saveAs_ok := true;
     now_name := 1727149200350;
     file_content := Some [];
     now_key := 1727149200400; now_meta := 1727149200401;
     send_ok := true; shot_after_ok := true;
     shot_error_state_ok := true; page_url := Some TARGET_URL;
     shot_error_page_ok := true; close_ok := true |}.

(** A world in which every call succeeds and the credentials are set. *)
Definition good_world : World :=
  sample_world (Some "secret") true true "preopen_20240924.csv".

End Scraper.

Import Scraper.

(** A property of traces that holds of the empty trace and of the
    concatenation of two traces that have it. Such a property of a
    program follows from the same property of its parts. *)
Class Modular (P : list event -> Prop) := {
  modular_nil : P [];
  modular_app t1 t2 : P t1 -> P t2 -> P (t1 ++ t2)
}.


(** ** Notions used in the statements *)

Fixpoint string_all (P : ascii -> bool) (s : string) : bool :=
  match s with
  | EmptyString => true
  | String a s' => P a && string_all P s'
  end.

(** The characters a date part is made of: digits and the two signs. *)
Definition date_char (a : ascii) : bool :=
  match Ascii.is_nat a with
  | Some _ => true
  | None => Ascii.eqb a "-" || Ascii.eqb a "+"
  end.

(** The day number of a year, month and day of month: the inverse of
    [Js.civil_from_days], used to show that it is injective. *)
Definition days_from_civil (ymd : Z * Z * Z) : Z :=
  let '(y, m, d) := ymd in
  let y := if m <=? 2 then y - 1 else y in
  let era := y / 400 in
  let yoe := y - era * 400 in
  let mp := if m <=? 2 then m + 9 else m - 3 in
  let doy := (153 * mp + 2) / 5 + d - 1 in
  let doe := yoe * 365 + yoe / 4 - yoe / 100 + doy in
  era * 146097 + doe - 719468.

Definition four_digit_year (y : Z) : bool := (0 <=? y) && (y <=? 9999).

(** The time values of a [Date]. *)
Definition valid_time (t : Z) : Prop :=
  -8640000000000000 <= t <= 8640000000000000.

(** Both credentials are set (and not empty). *)
Definition credentials_present (w : World) : bool :=
  Js.truthy (R2_ACCESS_KEY_ID w) && Js.truthy (R2_SECRET_ACCESS_KEY w).

Definition UPLOADING (fileName : string) : string :=
  "Uploading " +:+ fileName +:+ " to Cloudflare R2...".

(** The upload is skipped: the notice is on the console. *)
Definition skipped (tr : list event) : Prop := Log [SKIP_NOTICE] ∈ tr.

(** The upload is attempted: the Archiver announces it and reads the
    file to send. *)
Definition attempted (fileName : string) (tr : list event) : Prop :=
  Log [UPLOADING fileName] ∈ tr /\ exists filePath ok, Call (ReadFile filePath) ok ∈ tr.

(** An error is reported. *)
Definition error_reported (tr : list event) : Prop :=
  exists args, LogError args ∈ tr.


(** *** Notions about a run *)

(** What [run] does before its [try] block. *)
Definition SETUP : list event :=
  [Call EnsureDirs true; Log ["Launching browser in headed mode..."];
   Call Launch true; Call NewContext true; Call NewPage true].

(** The session exists: the folders, the browser, its context and the
    page were created, and [run] entered its [try] block. *)
Definition session_opened (w : World) : bool :=
  dirs_ok w && launch_ok w && newContext_ok w && newPage_ok w.

Fixpoint count_events (p : event -> bool) (tr : list event) : nat :=
  match tr with
  | [] => 0
  | e :: tr' => (if p e then 1 else 0) + count_events p tr'
  end.

Definition is_close (e : event) : bool :=
  match e with Call BrowserClose _ => true | _ => false end.

(** How often the browser is closed. *)
Definition closes (tr : list event) : nat := count_events is_close tr.

(** The last call on a trace (log lines aside). *)
Fixpoint last_call (tr : list event) : option op :=
  match tr with
  | [] => None
  | e :: tr' =>
      match last_call tr' with
      | Some o => Some o
      | None => match e with Call o _ => Some o | _ => None end
      end
  end.

Definition is_screenshot (e : event) : bool :=
  match e with Call (Screenshot _) _ => true | _ => false end.

(** How many diagnostic captures are attempted. *)
Definition capture_attempts (tr : list event) : nat :=
  count_events is_screenshot tr.

(** The capture at [path] was taken. *)
Definition captured (path : string) (tr : list event) : Prop :=
  Call (Screenshot path) true ∈ tr.

(** The capture at [path] was attempted. *)
Definition capture_attempted (path : string) (tr : list event) : Prop :=
  exists ok, Call (Screenshot path) ok ∈ tr.

(** Arming the download listener, and clicking the download trigger. *)
Definition is_arm (e : event) : bool :=
  match e with
  | Call (WaitForEvent name) _ => String.eqb name "download"
  | _ => false
  end.

Definition is_trigger_click (e : event) : bool :=
  match e with
  | Call (ClickLocator locator) _ => String.eqb locator CSV_LOCATOR
  | _ => false
  end.

(** Every click on the trigger has the listener armed at an earlier
    position of the trace. *)
Definition armed_before_click (tr : list event) : Prop :=
  forall i e, tr !! i = Some e -> is_trigger_click e = true ->
  exists j a, (j < i)%nat /\ tr !! j = Some a /\ is_arm a = true.

(** The calls of the Download Capturer: looking the trigger up, arming,
    clicking, awaiting the download, saving it. *)
Definition is_capturer (e : event) : bool :=
  match e with
  | Call (IsVisible _) _ | Call (WaitForEvent _) _ | Call (ClickLocator _) _
  | Call (AwaitEvent _) _ | Call (SaveAs _) _ => true
  | _ => false
  end.

(** What [uploadToR2] leaves on the trace: its calls and its lines. *)
Definition is_archiver (e : event) : bool :=
  match e with
  | Call (ReadFile _) _ | Call (Send _) _ => true
  | Log [line] =>
      String.eqb line SKIP_NOTICE || String.prefix "Uploading " line
      || String.prefix "Successfully uploaded to R2: " line
  | LogError (line :: _) => String.eqb line "Failed to upload to R2:"
  | _ => false
  end.

(** The spec's classification of a run, read off its trace: the run is a
    [FatalFailure] when the outer handler ran (it reports
    [AUTOMATION_ERROR]), [Completed] when the artifact was stored, and a
    [PartialFailure] otherwise. *)
Inductive RunOutcome := Completed | PartialFailure | FatalFailure.

Definition is_fatal_report (e : event) : bool :=
  match e with
  | LogError (line :: _) => String.eqb line AUTOMATION_ERROR
  | _ => false
  end.

Definition is_stored (e : event) : bool :=
  match e with Call (Send _) true => true | _ => false end.

Definition run_outcome (tr : list event) : RunOutcome :=
  if existsb is_fatal_report tr then FatalFailure
  else if existsb is_stored tr then Completed
  else PartialFailure.

(** The four diagnostic checkpoints and where each is written. *)
Inductive Checkpoint := Initial | PostDownload | PostSelectionError | FatalError.

Definition checkpoint_path (cp : Checkpoint) : string :=
  match cp with
  | Initial => SCREENSHOT_PATH
  | PostDownload => AFTER_DOWNLOAD_PATH
  | PostSelectionError => ERROR_STATE_PATH
  | FatalError => ERROR_PAGE_PATH
  end.

(** The world [w] with the answers of the four captures replaced. *)
Definition set_shots (initial after error_state error_page : bool)
    (w : World) : World :=
  {| R2_BUCKET_NAME := R2_BUCKET_NAME w;
     R2_ACCESS_KEY_ID := R2_ACCESS_KEY_ID w;
     R2_SECRET_ACCESS_KEY := R2_SECRET_ACCESS_KEY w;
     dirs_ok := dirs_ok w; launch_ok := launch_ok w;
     newContext_ok := newContext_ok w; newPage_ok := newPage_ok w;
     goto_ok := goto_ok w; settle_load_ok := settle_load_ok w;
     shot_initial_ok := initial;
     page_title := page_title w; selector_ok := selector_ok w;
     click_dropdown_ok := click_dropdown_ok w;
     settle_open_ok := settle_open_ok w;
     selectOption_ok := selectOption_ok w;
     settle_data_ok := settle_data_ok w; csv_visible := csv_visible w;
     click_csv_ok := click_csv_ok w; download := download w;
     now_path := now_path w; saveAs_ok := saveAs_ok w;
     now_name := now_name w; file_content := file_content w;
     now_key := now_key w; now_meta := now_meta w; send_ok := send_ok w;
     shot_after_ok := after;
     shot_error_state_ok := error_state;
     page_url := page_url w;
     shot_error_page_ok := error_page;
     close_ok := close_ok w |}.

(** The world [w] in which the capture at checkpoint [cp] answers [ok]. *)
Definition set_capture (cp : Checkpoint) (ok : bool) (w : World) : World :=
  match cp with
  | Initial =>
      set_shots ok (shot_after_ok w) (shot_error_state_ok w) (shot_error_page_ok w) w
  | PostDownload =>
      set_shots (shot_initial_ok w) ok (shot_error_state_ok w) (shot_error_page_ok w) w
  | PostSelectionError =>
      set_shots (shot_initial_ok w) (shot_after_ok w) ok (shot_error_page_ok w) w
  | FatalError =>
      set_shots (shot_initial_ok w) (shot_after_ok w) (shot_error_state_ok w) ok w
  end.

(** A failure of the capture at [cp] leaves the classification of every
    run as it is with the capture taken. *)
Definition capture_neutral (cp : Checkpoint) : Prop :=
  forall w,
    run_outcome (trace (run (set_capture cp false w))) =
    run_outcome (trace (run (set_capture cp true w))).

(** Every key sent to the store is [category/ISO-date/fileName], with the
    UTC date of the moment of the upload and the file name of the
    upload. *)
Definition keys_have_category (category : string) : Prop :=
  forall w command ok,
    Call (Send command) ok ∈ trace (run w) ->
    exists suggestedFilename,
      download w = Some suggestedFilename /\
      Key command =
        category +:+ "/" +:+ Js.date_string (now_key w) +:+ "/" +:+
        upload_name w suggestedFilename.

(** The run reaches the wait for the scope-selection control, and the
    control does not appear within the bound of the wait. *)
Definition control_not_found (w : World) : Prop :=
  session_opened w = true /\ goto_ok w = true /\ settle_load_ok w = true /\
  shot_initial_ok w = true /\ is_Some (page_title w) /\ selector_ok w = false.

(** C6 as the spec states it: a run whose control does not appear is a
    [PartialFailure], never enters the Download Capturer, and has the
    post-selection-error capture. *)
Definition control_absence_handled (w : World) : Prop :=
  control_not_found w ->
  run_outcome (trace (run w)) = PartialFailure /\
  count_events is_capturer (trace (run w)) = 0%nat /\
  captured ERROR_STATE_PATH (trace (run w)).

(** ** [src/api/rate-limiter.ts] *)

Module RateLimiter.

Definition WINDOW_MS : Z := 60000.
Definition MAX_REQUESTS : nat := 30.

(** [fetch]: the state of the object is [requests], the timestamps it
    keeps; [now] is [Date.now()]. The result is the new state and the
    [allowed] flag of the response. *)
Definition fetch (now : Z) (requests : list Z) : list Z * bool :=
  let requests := filter (fun timestamp => now - timestamp < WINDOW_MS) requests in
  if decide (MAX_REQUESTS <= length requests)%nat then (requests, false)
  else (requests ++ [now], true).

End RateLimiter.

(** ** [src/api/index.ts] *)

Module Api.

(** The body of the answer to [/api/dates]. *)
Record DatesPage := {
  dates : list string;
  totalCount : Z;
  page : Z;
  limit : Z;
  totalPages : Z
}.

Inductive Body :=
| DatesBody (r : DatesPage)
| ErrorBody (error : string)
| CsvBody (data : string).

Record Response := { status : Z; body : Body }.

(** [c.json(payload, status)]. *)
Definition json (b : Body) (s : Z) : Response := {| status := s; body := b |}.

(** A request to [/api/*]: its [CF-Connecting-IP] header, and the reading
    of the clock of the limiter that serves it. *)
Record Request := {
  cf_connecting_ip : option string;
  arrival : Z
}.

(** The identity the limiter is looked up by. *)
Definition caller (r : Request) : string :=
  Js.or_else (cf_connecting_ip r) "unknown".

(** The namespace of limiters: one object per name, created with no
    timestamps on first use, and kept for the sequence of requests. *)
Definition limiter_state (limiters : gmap string (list Z)) (name : string) : list Z :=
  default [] (limiters !! name).

Definition RATE_LIMITED : Response := json (ErrorBody "Rate limit exceeded") 429.

(** The middleware on [/api/*]; [next] is the answer of the route. The
    result is the namespace after the request, whether the limiter
    allowed it, and the response. *)
Definition middleware (limiters : gmap string (list Z)) (r : Request)
    (next : Response) : gmap string (list Z) * bool * Response :=
  let ip := caller r in
  let '(requests, allowed) := RateLimiter.fetch (arrival r) (limiter_state limiters ip) in
  (<[ip := requests]> limiters, allowed, if allowed then next else RATE_LIMITED).

(** A sequence of requests served one after the other; the log has, for
    each request, whether it was allowed and the response. *)
Fixpoint serve (route : Request -> Response) (limiters : gmap string (list Z))
    (rs : list Request) : list (Request * bool * Response) :=
  match rs with
  | [] => []
  | r :: rs' =>
      let '(limiters', allowed, response) := middleware limiters r (route r) in
      (r, allowed, response) :: serve route limiters' rs'
  end.

(** *** [GET /api/dates] *)

Definition PREFIX : string := "pre-open-market/".

(** [R2_BUCKET.list({ prefix })]: the keys of the bucket that start with
    the prefix, at most 1000 of them (the limit of one listing). *)
Definition list_objects (bucket : list string) (prefix : string) : list string :=
  take 1000 (filter (fun key => String.prefix prefix key = true) bucket).

Definition is_digit (a : ascii) : bool :=
  match Ascii.is_nat a with Some _ => true | None => false end.

(** [/^\d{4}-\d{2}-\d{2}$/] on a string. *)
Definition is_date (s : string) : bool :=
  match s with
  | String y1 (String y2 (String y3 (String y4 (String "-"
      (String m1 (String m2 (String "-" (String d1 (String d2 ""))))))))) =>
      is_digit y1 && is_digit y2 && is_digit y3 && is_digit y4 &&
      is_digit m1 && is_digit m2 && is_digit d1 && is_digit d2
  | _ => false
  end.

(** [key.match(/(\d{4}-\d{2}-\d{2})\.csv$/)]: the pattern has a fixed
    length of 14 characters and ends at the end of the key, so it can only
    match the last 14 characters; the result is the group, the first 10
    of them. *)
Definition match_date (key : string) : option string :=
  let n := String.length key in
  if (n <? 14)%nat then None
  else
    let tail := String.substring (n - 14) 14 key in
    let date := String.substring 0 10 tail in
    if is_date date && String.eqb (String.substring 10 4 tail) ".csv"
    then Some date else None.

(** [dateSet.add(d)]: a set in insertion order. *)
Definition set_add (dateSet : list string) (d : string) : list string :=
  if decide (d ∈ dateSet) then dateSet else dateSet ++ [d].

(** The [forEach] that collects the dates of the keys. *)
Definition collect_dates (keys : list string) : list string :=
  fold_left
    (fun dateSet key =>
       match match_date key with
       | Some d => set_add dateSet d
       | None => dateSet
       end)
    keys [].

(** [Array.from(dateSet).sort().reverse()]: the default sort orders
    strings by their code units. *)
Definition sorted_dates (keys : list string) : list string :=
  reverse (merge_sort String.le (collect_dates keys)).

(** [query.page || 1]: the query value is a number or missing; a missing
    value, [NaN] and [0] give the default. Numbers are integers here. *)
Definition or_default (q : option Z) (d : Z) : Z :=
  match q with
  | Some n => if n =? 0 then d else n
  | None => d
  end.

(** A relative index of [slice], against a length. *)
Definition relative_index (len rel : Z) : Z :=
  if rel <? 0 then Z.max (len + rel) 0 else Z.min rel len.

(** [Array.prototype.slice(start, end)]. *)
Definition slice {A} (l : list A) (start end_ : Z) : list A :=
  let len := Z.of_nat (length l) in
  let k := relative_index len start in
  let final := relative_index len end_ in
  take (Z.to_nat (Z.max (final - k) 0)) (drop (Z.to_nat k) l).

(** [Math.ceil(a / b)] for integers [a] and [b], [b] not zero. *)
Definition ceil_div (a b : Z) : Z := - ((- a) / b).

(** The handler of [/api/dates]; [bucket] is the content of the bucket,
    or nothing when the listing throws. *)
Definition list_dates (bucket : option (list string))
    (query_page query_limit : option Z) : Response :=
  let page := or_default query_page 1 in
  let limit := or_default query_limit 10 in
  match bucket with
  | Some keys =>
      let objects := list_objects keys PREFIX in
      let dates := sorted_dates objects in
      let totalCount := Z.of_nat (length dates) in
      let totalPages := ceil_div totalCount limit in
      let start := (page - 1) * limit in
      let end_ := start + limit in
      let paginatedDates := slice dates start end_ in
      json (DatesBody {| dates := paginatedDates; totalCount := totalCount;
                         page := page; limit := limit;
                         totalPages := totalPages |}) 200
  | None => json (ErrorBody "Failed to list dates") 500
  end.

End Api.

(** *** Notions about the limiter *)

Import Api.

(** The timestamp is less than a window before [now]: what [fetch]
    keeps. *)
Definition within (now timestamp : Z) : Prop :=
  now - timestamp < RateLimiter.WINDOW_MS.

(** The timestamp falls in the window of 60000 ms that starts at
    [start]. *)
Definition in_window (start timestamp : Z) : Prop :=
  start <= timestamp < start + RateLimiter.WINDOW_MS.

#[global] Instance within_dec now timestamp : Decision (within now timestamp).
Proof. unfold within. apply _. Defined.

#[global] Instance in_window_dec start timestamp : Decision (in_window start timestamp).
Proof. unfold in_window. apply _. Defined.

(** The timestamps of the requests of caller [ip] that were allowed. *)
Definition allowed_times (ip : string)
    (log : list (Request * bool * Response)) : list Z :=
  omap (fun e : Request * bool * Response =>
          if decide (caller e.1.1 = ip /\ e.1.2 = true)
          then Some (arrival e.1.1) else None) log.

(** The namespace of limiters after a sequence of requests. *)
Definition limiters_after (route : Request -> Response)
    (limiters : gmap string (list Z)) (rs : list Request) : gmap string (list Z) :=
  fold_left (fun limiters r => (middleware limiters r (route r)).1.1) rs limiters.

(** The clock of each limiter does not go back: the requests of one
    caller carry timestamps in the order they arrive. *)
Definition clock_monotone (rs : list Request) : Prop :=
  forall i j ri rj, (i <= j)%nat -> rs !! i = Some ri -> rs !! j = Some rj ->
  caller ri = caller rj -> arrival ri <= arrival rj.

(** What the limiter of a caller holds, seen by a clock that is not
    behind the requests of the caller, is what the log says was allowed;
    and no window holds more than the ceiling. *)
Definition limiter_invariant (limiters : gmap string (list Z))
    (rs : list Request) (log : list (Request * bool * Response)) : Prop :=
  (forall ip now',
     (forall r, r ∈ rs -> caller r = ip -> arrival r <= now') ->
     filter (within now') (limiter_state limiters ip) =
     filter (within now') (allowed_times ip log)) /\
  (forall ip start,
     (length (filter (in_window start) (allowed_times ip log))
      <= RateLimiter.MAX_REQUESTS)%nat).


(** *** Notions about the list of dates *)

(** Newest first: the dates at two positions of the list are in strictly
    decreasing order of their code units. *)
Definition descending (l : list string) : Prop :=
  forall i j a b, (i < j)%nat -> l !! i = Some a -> l !! j = Some b ->
  String.le b a /\ a <> b.

(** The date comes from a key of the bucket under the prefix: the key
    ends in the date and [.csv]. *)
Definition date_of_key (keys : list string) (d : string) : Prop :=
  exists key before,
    key ∈ keys /\ String.prefix PREFIX key = true /\
    key = before +:+ d +:+ ".csv".

(** C10 as stated, on the length of the page: the page of the answer has
    at most [limit] dates. *)
Definition page_within_limit (keys : list string)
    (query_page query_limit : option Z) : Prop :=
  forall r, list_dates (Some keys) query_page query_limit = json (DatesBody r) 200 ->
  Z.of_nat (length (dates r)) <= limit r.

(** ** Further notions: the limiter *)

(** The requests of one caller, in the order they arrive. *)
Definition requests_of (ip : string) (rs : list Request) : list Request :=
  filter (fun r => caller r = ip) rs.

(** The part of a log that belongs to one caller. *)
Definition log_of (ip : string)
    (log : list (Request * bool * Response)) : list (Request * bool * Response) :=
  filter (fun e : Request * bool * Response => caller e.1.1 = ip) log.

(** The entries of a log whose request was allowed, and their
    requests. *)
Definition allowed_log (log : list (Request * bool * Response)) :
    list (Request * bool * Response) :=
  filter (fun e : Request * bool * Response => e.1.2 = true) log.

Definition allowed_requests (log : list (Request * bool * Response)) : list Request :=
  (fun e : Request * bool * Response => e.1.1) <$> allowed_log log.

(** ** [src/api/index.ts]: the download route, and the bucket *)

Module Routes.

(** The double quote character. *)
Definition QUOTE : string := String "034" "".

(** The key the download route reads for a date. *)
Definition download_key (date : string) : string :=
  "pre-open-market/" +:+ date +:+ ".csv".

(** The answers of the download route: the file, or a JSON answer. *)
Inductive DownloadResponse :=
| CsvFile (status : Z) (headers : list (string * string)) (data : string)
| JsonResponse (r : Response).

(** The handler of [/api/download/{date}], for a [date] that passed the
    validation of the route. [bucket] maps the keys of the bucket to the
    text of their objects, or is nothing when reading the bucket throws. *)
Definition download_file (bucket : option (gmap string string))
    (date : string) : DownloadResponse :=
  match bucket with
  | Some objects =>
      let key := download_key date in
      match objects !! key with
      | None =>
          JsonResponse (json (ErrorBody "File not found for the specified date") 404)
      | Some csvData =>
          CsvFile 200
            [("Content-Type", "text/csv");
             ("Content-Disposition",
              "attachment; filename=" +:+ QUOTE +:+ date +:+ ".csv" +:+ QUOTE)]
            csvData
      end
  | None => JsonResponse (json (ErrorBody "Failed to download file") 500)
  end.

(** The keys of a bucket as a listing returns them, in the order of
    their code units. *)
Definition object_keys (objects : gmap string string) : list string :=
  merge_sort String.le (map_to_list objects).*1.

(** The list of all dates the list route pages through, for a bucket. *)
Definition all_dates (objects : gmap string string) : list string :=
  sorted_dates (list_objects (object_keys objects) PREFIX).

(** The dates of an answer of the list route (none for an error). *)
Definition response_dates (r : Response) : list string :=
  match body r with
  | DatesBody p => dates p
  | _ => []
  end.

(** The dates of page [p] (counted from 1) for a limit. *)
Definition page_dates (keys : list string) (limit : Z) (p : nat) : list string :=
  response_dates (list_dates (Some keys) (Some (Z.of_nat p)) (Some limit)).

End Routes.

(** Every key of the bucket was written by the scraper: it is the
    storage key of some upload. *)
Definition written_by_scraper (objects : gmap string string) : Prop :=
  forall key, is_Some (objects !! key) ->
  exists now fileName, key = storage_key now fileName.

(** The keys of the bucket under the prefix fit in one answer of the
    store: the handler lists once and does not follow the cursor, so it
    sees the first 1000 of them only. *)
Definition listing_fits (keys : list string) : Prop :=
  (length (filter (fun key => String.prefix PREFIX key = true) keys) <= 1000)%nat.

(** The listing of the prefix fits in one answer of the store. *)
Definition listing_complete (objects : gmap string string) : Prop :=
  (length (filter (fun key => String.prefix PREFIX key = true)
             (Routes.object_keys objects)) <= 1000)%nat.

(** ** Further notions: the run of the scraper *)

(** A call that returns a value returned one. *)
Definition answered {A} (o : option A) : bool :=
  match o with Some _ => true | None => false end.

(** The run gets as far as the look for the download button: the session
    is opened and every call before [isVisible] returns. *)
Definition reaches_button (w : World) : bool :=
  session_opened w && goto_ok w && settle_load_ok w && shot_initial_ok w &&
  answered (page_title w) && selector_ok w && click_dropdown_ok w &&
  settle_open_ok w && selectOption_ok w && settle_data_ok w.

(** The download is saved: the button is visible, the click returns, the
    download event comes and [saveAs] returns. *)
Definition download_saved (w : World) : bool :=
  reaches_button w &&
  match csv_visible w with Some visible => visible | None => false end &&
  click_csv_ok w && answered (download w) && saveAs_ok w.

(** Every step up to the answer of the store succeeds. *)
Definition every_step_succeeds (w : World) : bool :=
  download_saved w && credentials_present w && answered (file_content w) &&
  send_ok w.

(** What a stage of the pipeline needs before it: the click on the
    trigger gives the download event, the event the saved file, the saved
    file (at the same path) the content read, and the content read the
    object sent. *)
Definition enabled_by (e : event) : option (event -> Prop) :=
  match e with
  | Call (AwaitEvent _) _ => Some (fun a => a = Call (ClickLocator CSV_LOCATOR) true)
  | Call (SaveAs _) _ => Some (fun a => a = Call (AwaitEvent "download") true)
  | Call (ReadFile path) _ => Some (fun a => a = Call (SaveAs path) true)
  | Call (Send _) _ => Some (fun a => exists path, a = Call (ReadFile path) true)
  | _ => None
  end.

(** Every event of [t] that needs an earlier one has it at a smaller
    position, in the history [pre] or in [t] itself. *)
Definition in_order_after (pre t : list event) : Prop :=
  forall i e R, t !! i = Some e -> enabled_by e = Some R ->
  exists j a, (j < length pre + i)%nat /\ (pre ++ t) !! j = Some a /\ R a.

(** Every stage on the trace comes after the success of the stage it
    needs. *)
Definition in_order (tr : list event) : Prop :=
  forall i e R, tr !! i = Some e -> enabled_by e = Some R ->
  exists j a, (j < i)%nat /\ tr !! j = Some a /\ R a.

(** The body of every object sent is the content the file read gave. *)
Definition sends_what_was_read (w : World) (tr : list event) : Prop :=
  forall command ok, Call (Send command) ok ∈ tr ->
  file_content w = Some (Eff.Body command).

#[global] Instance byte_eq_dec : EqDecision Byte.byte := Byte.byte_eq_dec.

#[global] Instance PutObjectCommand_eq_dec : EqDecision PutObjectCommand.
Proof. solve_decision. Defined.

#[global] Instance op_eq_dec : EqDecision op.
Proof. solve_decision. Defined.


(** ** Further notions: the Archiver and the captures *)

#[global] Instance event_eq_dec : EqDecision event.
Proof. solve_decision. Defined.

(** Reading the file to send, or sending it. *)
Definition is_transfer (e : event) : bool :=
  match e with
  | Call (ReadFile _) _ | Call (Send _) _ => true
  | _ => false
  end.

(** The line that the handler catching a failure of the capture at a
    checkpoint writes first: the outer handler reports the error of the
    initial and of the post-selection-error capture, the inner handler
    the error of the post-download capture, and the handler around the
    fatal-error capture writes its own line. *)
Definition failure_line (cp : Checkpoint) : event :=
  match cp with
  | Initial | PostSelectionError => LogError [AUTOMATION_ERROR; "call failed"]
  | PostDownload =>
      Log ["Could not find Category dropdown or CSV button:"; "call failed"]
  | FatalError => Log ["Could not take error screenshot"]
  end.

(** A failure of the capture at [cp] is logged: wherever the capture
    fails on the trace, the next event is the line of the handler. *)
Definition failure_logged (cp : Checkpoint) (tr : list event) : Prop :=
  forall i, tr !! i = Some (Call (Screenshot (checkpoint_path cp)) false) ->
  tr !! S i = Some (failure_line cp).

(** The checkpoint a capture is written for. *)
Definition checkpoint_at (path : string) : option Checkpoint :=
  if String.eqb path SCREENSHOT_PATH then Some Initial
  else if String.eqb path AFTER_DOWNLOAD_PATH then Some PostDownload
  else if String.eqb path ERROR_STATE_PATH then Some PostSelectionError
  else if String.eqb path ERROR_PAGE_PATH then Some FatalError
  else None.

(** [failure_logged] for every checkpoint, as a test on a trace. *)
Fixpoint failures_followed (tr : list event) : bool :=
  match tr with
  | [] => true
  | e :: rest =>
      match e with
      | Call (Screenshot path) false =>
          match checkpoint_at path with
          | Some cp => bool_decide (head rest = Some (failure_line cp))
          | None => true
          end
      | _ => true
      end && failures_followed rest
  end.

(** ** [script.ts]: the top level *)

Module Script.

(** The statements after [run]: the start line, the run, and the line of
    the end or, when the promise of [run] is rejected, the report and
    [process.exit(1)]. The value is the exit code ([0] when the script
    runs to its end); [started] and [finished] are the two readings of
    the clock. The lines are written as those of [run], without the
    pictograph they start with. *)
Definition script (w : World) (started finished : Z) : M Z :=
  log ["Starting NSE scraper at " +:+ Js.toISOString started] ;;
  try_catch
    (run w ;;
     log ["NSE scraper finished at " +:+ Js.toISOString finished] ;;
     ret 0)
    (fun message =>
       log_error ["Fatal error:"; message] ;;
       ret 1).

(** The click on the trigger threw. *)
Definition is_failed_trigger_click (e : event) : bool :=
  match e with
  | Call (ClickLocator locator) false => String.eqb locator CSV_LOCATOR
  | _ => false
  end.

(** The promise of the download listener is left without a handler:
    [run] makes it before the click and awaits it after the click only,
    so when the click throws nothing ever awaits it. It is rejected at
    the latest when the browser closes. *)
Definition listener_abandoned (tr : list event) : bool :=
  existsb is_failed_trigger_click tr.

(** How the process ends: the script runs to its end or to
    [process.exit], with what it wrote; or Node ends the process on a
    rejected promise that nothing handles (the default of Node since
    version 15; the image of the [Dockerfile] has Node 18). What was
    written by then depends on when the promise is rejected, and is left
    open. *)
Inductive ProcessEnd :=
| Exited (code : Z) (lines : list event)
| UnhandledRejection (code : Z).

Definition exit_code (e : ProcessEnd) : Z :=
  match e with
  | Exited code _ => code
  | UnhandledRejection code => code
  end.

Definition main (w : World) (started finished : Z) : ProcessEnd :=
  if listener_abandoned (trace (run w)) then UnhandledRejection 1
  else
    let m := script w started finished in
    Exited (match outcome m with Ok code => code | Throw _ => 1 end) (trace m).

End Script.

(** The run gets to the click on the download trigger, and the click
    throws. *)
Definition click_fails (w : World) : bool :=
  reaches_button w &&
  match csv_visible w with Some visible => visible | None => false end &&
  negb (click_csv_ok w).

(** ** Further notions: paths, and worlds *)

(** A character that is not the separator of paths. *)
Definition no_slash (a : ascii) : bool := negb (Ascii.eqb a "/").

(** A file name of one plain segment: not empty, not [.] or [..], and
    without a separator. *)
Definition plain_name (name : string) : bool :=
  negb (String.eqb name "") && negb (String.eqb name ".") &&
  negb (String.eqb name "..") && string_all no_slash name.

(** The world [w] in which the click on the download trigger throws. *)
Definition fail_click (w : World) : World :=
  {| R2_BUCKET_NAME := R2_BUCKET_NAME w;
     R2_ACCESS_KEY_ID := R2_ACCESS_KEY_ID w;
     R2_SECRET_ACCESS_KEY := R2_SECRET_ACCESS_KEY w;
     dirs_ok := dirs_ok w; launch_ok := launch_ok w;
     newContext_ok := newContext_ok w; newPage_ok := newPage_ok w;
     goto_ok := goto_ok w; settle_load_ok := settle_load_ok w;
     shot_initial_ok := shot_initial_ok w;
     page_title := page_title w; selector_ok := selector_ok w;
     click_dropdown_ok := click_dropdown_ok w;
     settle_open_ok := settle_open_ok w;
     selectOption_ok := selectOption_ok w;
     settle_data_ok := settle_data_ok w; csv_visible := csv_visible w;
     click_csv_ok := false; download := download w;
     now_path := now_path w; saveAs_ok := saveAs_ok w;
     now_name := now_name w; file_content := file_content w;
     now_key := now_key w; now_meta := now_meta w; send_ok := send_ok w;
     shot_after_ok := shot_after_ok w;
     shot_error_state_ok := shot_error_state_ok w;
     page_url := page_url w;
     shot_error_page_ok := shot_error_page_ok w;
     close_ok := close_ok w |}.


(** A line on the error console. *)
Definition is_log_error (e : event) : bool :=
  match e with LogError _ => true | _ => false end.

(** A capture that was taken. *)
Definition is_captured (e : event) : bool :=
  match e with Call (Screenshot _) true => true | _ => false end.

(** ** [index.js]: the probe of the home page *)

Module Probe.

Definition HOME_URL : string := "https://www.nseindia.com/".
Definition SCREENSHOT : string := "nse-screenshot.png".

(** What the browser answers during one run of the probe. *)
Record World := {
  launch_ok : bool;
  newContext_ok : bool;
  newPage_ok : bool;
  goto_ok : bool;
  page_title : option string;
  settle_ok : bool;
  shot_ok : bool;
  close_ok : bool
}.

(** The [try] block. The title is read before the line that shows it is
    written. *)
Definition visit (w : World) : M unit :=
  log ["Navigating to NSE India..."] ;;
  call (Goto HOME_URL 60000) (goto_ok w) ;;
  title <- call_val Title (page_title w) ;;
  log ["Page loaded, title:"; title] ;;
  call (WaitForTimeout 3000) (settle_ok w) ;;
  call (Screenshot SCREENSHOT) (shot_ok w) ;;
  log ["creenshot saved as nse-scrSeenshot.png"].

Definition run (w : World) : M unit :=
  call Launch (launch_ok w) ;;
  call NewContext (newContext_ok w) ;;
  call NewPage (newPage_ok w) ;;
  try_finally
    (try_catch (visit w) (fun message => log_error ["Error:"; message]))
    (call BrowserClose (close_ok w)).

(** The page exists: [run] enters its [try] block. *)
Definition opened (w : World) : bool :=
  launch_ok w && newContext_ok w && newPage_ok w.

(** Every call of the [try] block returns. *)
Definition visited (w : World) : bool :=
  goto_ok w && answered (page_title w) && settle_ok w && shot_ok w.

End Probe.

(** ** The scraper before the upload was added

    The older [script.ts] kept with the sources: [run] without
    [uploadToR2], with other options for the navigation and shorter waits
    for the page and the control. It runs in the same world. As in [run],
    a navigation is on the trace with its URL and the time allowed to it;
    [waitUntil] is not on the trace. *)

Module Legacy.

Definition capture (w : World) : M unit :=
  log ["Found CSV download button, clicking..."] ;;
  call (WaitForEvent "download") true ;;
  call (ClickLocator CSV_LOCATOR) (click_csv_ok w) ;;
  suggestedFilename <- call_val (AwaitEvent "download") (download w) ;;
  log ["Download started: " +:+ suggestedFilename] ;;
  let downloadPath := Path.join DOWNLOADS_PATH (saved_name w suggestedFilename) in
  call (SaveAs downloadPath) (saveAs_ok w) ;;
  log ["CSV file downloaded to: " +:+ downloadPath] ;;
  call (Screenshot AFTER_DOWNLOAD_PATH) (shot_after_ok w).

Definition select_and_download (w : World) : M unit :=
  call (WaitForSelector CATEGORY_SELECTOR 10000) (selector_ok w) ;;
  log ["Found Category dropdown, selecting 'All'..."] ;;
  call (Click CATEGORY_SELECTOR) (click_dropdown_ok w) ;;
  call (WaitForTimeout 2000) (settle_open_ok w) ;;
  call (SelectOption CATEGORY_SELECTOR "ALL") (selectOption_ok w) ;;
  log ["Selected 'All' category"] ;;
  call (WaitForTimeout 3000) (settle_data_ok w) ;;
  log ["Looking for CSV download option..."] ;;
  visible <- call_val (IsVisible CSV_LOCATOR) (csv_visible w) ;;
  if visible : bool then capture w
  else log ["CSV download button not found"].

Definition extract (w : World) : M unit :=
  log ["Navigating to " +:+ TARGET_URL] ;;
  call (Goto TARGET_URL 60000) (goto_ok w) ;;
  log ["Waiting for page to load completely..."] ;;
  call (WaitForTimeout 5000) (settle_load_ok w) ;;
  log ["Taking initial screenshot..."] ;;
  call (Screenshot SCREENSHOT_PATH) (shot_initial_ok w) ;;
  title <- call_val Title (page_title w) ;;
  log ["Page title:"; title] ;;
  log ["Looking for Category dropdown..."] ;;
  try_catch (select_and_download w) (selector_handler w) ;;
  log ["Pre-open market data extraction completed"].

Definition run (w : World) : M unit :=
  call EnsureDirs (dirs_ok w) ;;
  log ["Launching browser in headed mode..."] ;;
  call Launch (launch_ok w) ;;
  call NewContext (newContext_ok w) ;;
  call NewPage (newPage_ok w) ;;
  try_finally (try_catch (extract w) (error_handler w)) (release w).

End Legacy.

(** An event of the older script with the two waits the newer script
    changed: the pause after the navigation and the time allowed to the
    wait for the control. *)
Definition retimed (e : event) : event :=
  match e with
  | Call (WaitForTimeout 5000) ok => Call (WaitForTimeout 8000) ok
  | Call (WaitForSelector selector 10000) ok =>
      Call (WaitForSelector selector 15000) ok
  | _ => e
  end.

(** An event without the options of [goto]. The two scripts navigate
    with different options ([waitUntil: 'networkidle'] and 60000 ms in the
    older one, ['domcontentloaded'] and 30000 ms in the newer one); the
    model of the call carries the URL and the time allowed only, and the
    comparison of the two scripts leaves the options of [goto] out. *)
Definition without_goto_options (e : event) : event :=
  match e with
  | Call (Goto url _) ok => Call (Goto url 0) ok
  | _ => e
  end.

(** The older program [old] takes the steps of the newer program [new]
    without what the Archiver leaves on the trace: the same events in the
    same order, up to the two waits that were changed and without
    comparing the options of [goto], and the same result. *)
Definition same_steps {A} (old new : M A) : Prop :=
  (fun e => without_goto_options (retimed e)) <$> trace old =
    without_goto_options <$> filter (fun e => is_archiver e = false) (trace new) /\
  outcome old = outcome new.
(** * Properties *)

Example toISOString_epoch :
  Js.toISOString 0 = "1970-01-01T00:00:00.000Z".
Proof. reflexivity. Qed.

Example toISOString_sample :
  Js.toISOString 1727149200123 = "2024-09-24T03:40:00.123Z".
Proof. vm_compute. reflexivity. Qed.

Example toISOString_leap_day :
  Js.toISOString 1709251199999 = "2024-02-29T23:59:59.999Z".
Proof. vm_compute. reflexivity. Qed.

Example toISOString_before_epoch :
  Js.toISOString (-1) = "1969-12-31T23:59:59.999Z".
Proof. vm_compute. reflexivity. Qed.

Example toISOString_max :
  Js.toISOString 8640000000000000 = "+275760-09-13T00:00:00.000Z".
Proof. vm_compute. reflexivity. Qed.

Example endsWith_csv : Js.endsWith "preopen_20240924.csv" ".csv" = true.
Proof. reflexivity. Qed.

Example path_join_downloads :
  Path.join "./downloads" "preopen_20240924.csv" = "downloads/preopen_20240924.csv".
Proof. reflexivity. Qed.

Example path_join_dotdot :
  Path.join "./downloads" "../x.csv" = "x.csv".
Proof. reflexivity. Qed.

(** ** Reasoning about traces *)

Section TraceLemmas.
Context {A B : Type}.
Implicit Types (m : M A) (k : A -> M B) (h : string -> M A) (fin : M unit).

Lemma trace_bind m k :
  trace (Eff.bind m k) =
  trace m ++ match outcome m with Ok a => trace (k a) | Throw _ => [] end.
Proof.
  destruct m as [t [a|e]]; unfold Eff.bind, trace, outcome; simpl.
  - by destruct (k a).
  - by rewrite app_nil_r.
Qed.

Lemma outcome_bind m k :
  outcome (Eff.bind m k) =
  match outcome m with Ok a => outcome (k a) | Throw e => Throw e end.
Proof.
  destruct m as [t [a|e]]; unfold Eff.bind, outcome; simpl; [|done].
  by destruct (k a).
Qed.

Lemma trace_try_catch m h :
  trace (try_catch m h) =
  trace m ++ match outcome m with Ok _ => [] | Throw e => trace (h e) end.
Proof.
  destruct m as [t [a|e]]; unfold try_catch, trace, outcome; simpl.
  - by rewrite app_nil_r.
  - by destruct (h e).
Qed.

Lemma outcome_try_catch m h :
  outcome (try_catch m h) =
  match outcome m with Ok a => Ok a | Throw e => outcome (h e) end.
Proof.
  destruct m as [t [a|e]]; unfold try_catch, outcome; simpl; [done|].
  by destruct (h e).
Qed.

Lemma trace_try_finally m fin :
  trace (try_finally m fin) = trace m ++ trace fin.
Proof. destruct m as [t r], fin as [t' [[]|e]]; reflexivity. Qed.

Lemma outcome_try_finally m fin :
  outcome (try_finally m fin) =
  match outcome fin with Ok _ => outcome m | Throw e => Throw e end.
Proof. destruct m as [t r], fin as [t' [[]|e]]; reflexivity. Qed.
End TraceLemmas.

#[global] Instance Forall_modular (Q : event -> Prop) : Modular (Forall Q).
Proof. split; [constructor | intros; by apply Forall_app]. Qed.

Section ModularLemmas.
Context (P : list event -> Prop) `{!Modular P}.

Lemma modular_ret {A} (a : A) : P (trace (ret a)).
Proof. apply modular_nil. Qed.

Lemma modular_bind {A B} (m : M A) (k : A -> M B) :
  P (trace m) -> (forall a, outcome m = Ok a -> P (trace (k a))) ->
  P (trace (Eff.bind m k)).
Proof.
  intros Hm Hk. rewrite trace_bind. apply modular_app; [done|].
  destruct (outcome m); [by apply Hk | apply modular_nil].
Qed.

Lemma modular_try_catch {A} (m : M A) (h : string -> M A) :
  P (trace m) -> (forall e, outcome m = Throw e -> P (trace (h e))) ->
  P (trace (try_catch m h)).
Proof.
  intros Hm Hh. rewrite trace_try_catch. apply modular_app; [done|].
  destruct (outcome m); [apply modular_nil | by apply Hh].
Qed.

Lemma modular_try_finally {A} (m : M A) (fin : M unit) :
  P (trace m) -> P (trace fin) -> P (trace (try_finally m fin)).
Proof. intros. rewrite trace_try_finally. by apply modular_app. Qed.

Lemma modular_call o ok : P [Call o ok] -> P (trace (call o ok)).
Proof. done. Qed.

Lemma modular_call_val {A} o (r : option A) :
  (forall ok, P [Call o ok]) -> P (trace (call_val o r)).
Proof. intros H. destruct r; apply H. Qed.

Lemma modular_log args : P [Log args] -> P (trace (log args)).
Proof. done. Qed.

Lemma modular_log_error args : P [LogError args] -> P (trace (log_error args)).
Proof. done. Qed.

Lemma modular_if {A} (b : bool) (m1 m2 : M A) :
  P (trace m1) -> P (trace m2) -> P (trace (if b then m1 else m2)).
Proof. by destruct b. Qed.
End ModularLemmas.

(** Walks through a program built from the combinators and leaves the
  goals about its single calls and log lines. *)
Ltac modular_step :=
  lazymatch goal with
  | |- ?P (trace (Eff.bind _ _)) => apply (modular_bind P); [|intros ? ?]
  | |- ?P (trace (try_catch _ _)) => apply (modular_try_catch P); [|intros ? ?]
  | |- ?P (trace (try_finally _ _)) => apply (modular_try_finally P)
  | |- ?P (trace (if _ then _ else _)) => apply (modular_if P)
  | |- ?P (trace (ret _)) => apply (modular_ret P)
  | |- ?P (trace (call _ _)) => apply (modular_call P)
  | |- ?P (trace (call_val _ _)) => apply (modular_call_val P); intros ?
  | |- ?P (trace (log _)) => apply (modular_log P)
  | |- ?P (trace (log_error _)) => apply (modular_log_error P)
  end.

Ltac modular_walk := repeat modular_step.

(** Membership in a list that is written out: [not_here H] refutes
    [H : e ∈ [e1; ...; en]] when [e] differs from each [ei] by its
    constructors, [here n] proves [e ∈ l] at position [n]. *)
Ltac not_here H :=
  repeat (apply elem_of_cons in H as [H|H]; [discriminate H|]);
  by apply elem_of_nil in H.

Ltac here n := apply list_elem_of_lookup; by exists n.

(** ** Strings of the date *)

Section DateStrings.

Lemma string_all_app P s1 s2 :
  string_all P (s1 +:+ s2) = string_all P s1 && string_all P s2.
Proof.
  induction s1 as [|a s1 IH]; [done|].
  change (String a s1 +:+ s2) with (String a (s1 +:+ s2)).
  simpl. by rewrite IH, andb_assoc.
Qed.

Lemma digit_char_date d : date_char (Js.digit_char d) = true.
Proof. unfold Js.digit_char. repeat case_match; reflexivity. Qed.

Lemma pad_digits_date w n : string_all date_char (Js.pad_digits w n) = true.
Proof.
  induction w as [|w IH]; [done|].
  cbn [Js.pad_digits string_all]. by rewrite digit_char_date, IH.
Qed.

Lemma year_string_date y : string_all date_char (Js.year_string y) = true.
Proof.
  unfold Js.year_string. repeat case_match; cbn [string_all];
    rewrite ?pad_digits_date; reflexivity.
Qed.

Lemma date_string_date t : string_all date_char (Js.date_string t) = true.
Proof.
  unfold Js.date_string. destruct (Js.civil_from_days _) as [[y m] d].
  rewrite !string_all_app, year_string_date, !pad_digits_date. reflexivity.
Qed.

(** Splitting at a character that the head does not contain. *)
Lemma split_head_app c s rest :
  string_all (fun a => negb (Ascii.eqb a c)) s = true ->
  Js.split_head c (s +:+ String c rest) = s.
Proof.
  induction s as [|a s IH]; intros Hs.
  - change ("" +:+ String c rest) with (String c rest).
    simpl. by rewrite Ascii.eqb_refl.
  - change (String a s +:+ String c rest) with (String a (s +:+ String c rest)).
    simpl in *. apply andb_true_iff in Hs as [Ha Hs].
    apply negb_true_iff in Ha. rewrite Ha. f_equal. by apply IH.
Qed.

Lemma string_all_impl (P Q : ascii -> bool) s :
  (forall a, P a = true -> Q a = true) ->
  string_all P s = true -> string_all Q s = true.
Proof.
  intros HPQ. induction s as [|a s IH]; [done|]. simpl.
  rewrite !andb_true_iff. intros [??]. auto.
Qed.

Lemma date_char_not c :
  date_char c = false -> forall a, date_char a = true -> negb (Ascii.eqb a c) = true.
Proof.
  intros Hc a Ha. apply negb_true_iff, Ascii.eqb_neq. congruence.
Qed.

(** [toISOString().split('T')[0]] is the date part. *)
Lemma split_T_toISOString t :
  Js.split_head "T" (Js.toISOString t) = Js.date_string t.
Proof.
  unfold Js.toISOString. apply split_head_app.
  eapply string_all_impl; [|apply date_string_date].
  by apply date_char_not.
Qed.

Lemma split_slash_date t rest :
  Js.split_head "/" (Js.date_string t +:+ String "/" rest) = Js.date_string t.
Proof.
  apply split_head_app.
  eapply string_all_impl; [|apply date_string_date].
  by apply date_char_not.
Qed.

End DateStrings.

(** ** The calendar: a date string determines its day *)

Section Calendar.

Ltac div_lia := Z.to_euclidean_division_equations; lia.

Lemma days_from_civil_from_days z :
  days_from_civil (Js.civil_from_days z) = z.
Proof.
  unfold days_from_civil, Js.civil_from_days.
  set (z0 := z + 719468).
  set (era := z0 / 146097).
  set (doe := z0 - era * 146097).
  assert (Hdoe : 0 <= doe <= 146096) by (subst doe era; div_lia).
  assert (Hz : z = era * 146097 + doe - 719468) by (subst doe z0; lia).
  clearbody doe era.
  set (yoe := (doe - doe / 1460 + doe / 36524 - doe / 146096) / 365).
  assert (Hyoe : 0 <= yoe <= 399) by (subst yoe; div_lia).
  set (doy := doe - (365 * yoe + yoe / 4 - yoe / 100)).
  assert (Hdoy : 0 <= doy <= 365) by (subst doy yoe; div_lia).
  set (mp := (5 * doy + 2) / 153).
  assert (Hmp : 0 <= mp <= 11) by (subst mp; div_lia).
  assert (Hera : (yoe + era * 400) / 400 = era) by div_lia.
  destruct (mp <? 10) eqn:E; [apply Z.ltb_lt in E | apply Z.ltb_ge in E].
  - replace (mp + 3 <=? 2) with false by (symmetry; apply Z.leb_gt; lia).
    rewrite Hera. replace (mp + 3 - 3) with mp by lia.
    replace (yoe + era * 400 - era * 400) with yoe by lia.
    subst doy. lia.
  - replace (mp - 9 <=? 2) with true by (symmetry; apply Z.leb_le; lia).
    replace (yoe + era * 400 + 1 - 1) with (yoe + era * 400) by lia.
    rewrite Hera. replace (mp - 9 + 9) with mp by lia.
    replace (yoe + era * 400 - era * 400) with yoe by lia.
    subst doy. lia.
Qed.

Lemma civil_from_days_inj z1 z2 :
  Js.civil_from_days z1 = Js.civil_from_days z2 -> z1 = z2.
Proof.
  intros H. rewrite <- (days_from_civil_from_days z1), H.
  apply days_from_civil_from_days.
Qed.

(** Months, days of month and years of the days a [Date] can hold
    (at most 100 000 000 days on either side of the epoch). *)
Lemma civil_from_days_range z :
  -100000000 <= z <= 100000000 ->
  let '(y, m, d) := Js.civil_from_days z in
  -999999 <= y <= 999999 /\ 1 <= m <= 12 /\ 1 <= d <= 31.
Proof.
  intros Hz. unfold Js.civil_from_days.
  set (z0 := z + 719468).
  set (era := z0 / 146097).
  set (doe := z0 - era * 146097).
  assert (Hdoe : 0 <= doe <= 146096) by (subst doe era; div_lia).
  assert (Hera : -700 <= era <= 700) by (subst era z0; div_lia).
  clearbody doe era.
  set (yoe := (doe - doe / 1460 + doe / 36524 - doe / 146096) / 365).
  assert (Hyoe : 0 <= yoe <= 399) by (subst yoe; div_lia).
  set (doy := doe - (365 * yoe + yoe / 4 - yoe / 100)).
  assert (Hdoy : 0 <= doy <= 365) by (subst doy yoe; div_lia).
  clearbody doy yoe.
  set (mp := (5 * doy + 2) / 153).
  assert (Hmp : 0 <= mp <= 11) by (subst mp; div_lia).
  assert (Hd : 1 <= doy - (153 * mp + 2) / 5 + 1 <= 31) by (subst mp; div_lia).
  clearbody mp.
  destruct (mp <? 10) eqn:E; [apply Z.ltb_lt in E | apply Z.ltb_ge in E].
  - replace (mp + 3 <=? 2) with false by (symmetry; apply Z.leb_gt; lia). lia.
  - replace (mp - 9 <=? 2) with true by (symmetry; apply Z.leb_le; lia). lia.
Qed.

(** Digits. *)

Lemma digit_char_inj x y :
  0 <= x < 10 -> 0 <= y < 10 -> Js.digit_char x = Js.digit_char y -> x = y.
Proof.
  intros Hx Hy.
  assert (x = 0 \/ x = 1 \/ x = 2 \/ x = 3 \/ x = 4 \/ x = 5 \/ x = 6 \/
          x = 7 \/ x = 8 \/ x = 9) as Hx' by lia.
  assert (y = 0 \/ y = 1 \/ y = 2 \/ y = 3 \/ y = 4 \/ y = 5 \/ y = 6 \/
          y = 7 \/ y = 8 \/ y = 9) as Hy' by lia.
  clear Hx Hy.
  repeat (destruct Hx' as [->|Hx']); try subst x;
    repeat (destruct Hy' as [->|Hy']); try subst y;
    (reflexivity || discriminate).
Qed.

Lemma length_pad_digits w n : String.length (Js.pad_digits w n) = w.
Proof. induction w as [|w IH]; [done|]. simpl. by rewrite IH. Qed.

Lemma pad_digits_digits w a b :
  Js.pad_digits w a = Js.pad_digits w b ->
  forall i, (i < w)%nat -> (a / 10 ^ Z.of_nat i) mod 10 = (b / 10 ^ Z.of_nat i) mod 10.
Proof.
  induction w as [|w IH]; intros H i Hi; [lia|].
  cbn [Js.pad_digits] in H. injection H as Hd Hrest.
  destruct (decide (i = w)) as [->|].
  - apply digit_char_inj in Hd; [done|apply Z.mod_pos_bound; lia..].
  - apply IH; [done|lia].
Qed.

Lemma digits_determine w : forall a b,
  0 <= a < 10 ^ Z.of_nat w -> 0 <= b < 10 ^ Z.of_nat w ->
  (forall i, (i < w)%nat -> (a / 10 ^ Z.of_nat i) mod 10 = (b / 10 ^ Z.of_nat i) mod 10) ->
  a = b.
Proof.
  induction w as [|w IH]; intros a b Ha Hb H.
  - change (10 ^ Z.of_nat 0) with 1 in *. lia.
  - rewrite Nat2Z.inj_succ, Z.pow_succ_r in Ha, Hb by lia.
    assert (a / 10 = b / 10) as Hq.
    { apply IH.
      - split; [apply Z.div_pos; lia | apply Z.div_lt_upper_bound; lia].
      - split; [apply Z.div_pos; lia | apply Z.div_lt_upper_bound; lia].
      - intros i Hi. specialize (H (S i) ltac:(lia)).
        rewrite Nat2Z.inj_succ, Z.pow_succ_r in H by lia.
        rewrite !Z.div_div by lia. exact H. }
    specialize (H 0%nat ltac:(lia)).
    change (10 ^ Z.of_nat 0) with 1 in H. rewrite !Z.div_1_r in H.
    rewrite (Z.div_mod a 10), (Z.div_mod b 10) by lia. congruence.
Qed.

Lemma pad_digits_inj w a b :
  0 <= a < 10 ^ Z.of_nat w -> 0 <= b < 10 ^ Z.of_nat w ->
  Js.pad_digits w a = Js.pad_digits w b -> a = b.
Proof. intros Ha Hb H. eapply digits_determine; eauto using pad_digits_digits. Qed.

End Calendar.

Section DateInjective.

Lemma string_app_cons a s r : String a s +:+ r = String a (s +:+ r).
Proof. reflexivity. Qed.

(** Two concatenations whose heads have the same length agree part by
    part. *)
Lemma string_app_inv s1 : forall s2 r1 r2,
  String.length s1 = String.length s2 ->
  s1 +:+ r1 = s2 +:+ r2 -> s1 = s2 /\ r1 = r2.
Proof.
  induction s1 as [|a s1 IH]; intros [|b s2] r1 r2 Hlen H; try discriminate.
  - done.
  - rewrite !string_app_cons in H. injection H as -> H.
    injection Hlen as Hlen. destruct (IH _ _ _ Hlen H) as [-> ->]. done.
Qed.

Lemma String_inv a b s1 s2 : String a s1 = String b s2 -> a = b /\ s1 = s2.
Proof. intros H. by inversion H. Qed.

Lemma digit_char_not_sign d :
  Js.digit_char d <> "-"%char /\ Js.digit_char d <> "+"%char.
Proof. unfold Js.digit_char. repeat case_match; split; discriminate. Qed.

Lemma year_string_tail_inj y1 y2 r1 r2 :
  -999999 <= y1 <= 999999 -> -999999 <= y2 <= 999999 ->
  Js.year_string y1 +:+ r1 = Js.year_string y2 +:+ r2 ->
  y1 = y2 /\ r1 = r2.
Proof.
  intros H1 H2. unfold Js.year_string.
  change ((0 <=? y1) && (y1 <=? 9999)) with (four_digit_year y1).
  change ((0 <=? y2) && (y2 <=? 9999)) with (four_digit_year y2).
  destruct (four_digit_year y1) eqn:F1, (four_digit_year y2) eqn:F2;
    unfold four_digit_year in F1, F2.
  - intros H. apply string_app_inv in H as [H ->];
      [|by rewrite !length_pad_digits].
    apply andb_true_iff in F1 as [?%Z.leb_le ?%Z.leb_le].
    apply andb_true_iff in F2 as [?%Z.leb_le ?%Z.leb_le].
    split; [|done]. apply pad_digits_inj in H; [done|simpl; lia..].
  - intros H. exfalso. cbn [Js.pad_digits] in H.
    destruct (y2 <? 0); rewrite !string_app_cons in H;
      apply String_inv in H as [H _]; by apply digit_char_not_sign in H.
  - intros H. exfalso. cbn [Js.pad_digits] in H.
    destruct (y1 <? 0); rewrite !string_app_cons in H;
      apply String_inv in H as [H _]; symmetry in H;
      by apply digit_char_not_sign in H.
  - apply andb_false_iff in F1, F2.
    rewrite !Z.leb_gt in F1, F2.
    destruct (y1 <? 0) eqn:N1, (y2 <? 0) eqn:N2;
      rewrite ?Z.ltb_lt, ?Z.ltb_ge in N1, N2;
      rewrite ?(string_app_cons "-"), ?(string_app_cons "+");
      intros [Hs H]%String_inv; try discriminate;
      (apply string_app_inv in H as [H ->]; [|by rewrite !length_pad_digits]);
      (apply pad_digits_inj in H; [|simpl; lia..]);
      split; (done || lia).
Qed.

Lemma civil_date_inj y1 m1 d1 y2 m2 d2 :
  -999999 <= y1 <= 999999 -> 1 <= m1 <= 12 -> 1 <= d1 <= 31 ->
  -999999 <= y2 <= 999999 -> 1 <= m2 <= 12 -> 1 <= d2 <= 31 ->
  Js.year_string y1 +:+ "-" +:+ Js.pad_digits 2 m1 +:+ "-" +:+ Js.pad_digits 2 d1 =
  Js.year_string y2 +:+ "-" +:+ Js.pad_digits 2 m2 +:+ "-" +:+ Js.pad_digits 2 d2 ->
  (y1, m1, d1) = (y2, m2, d2).
Proof.
  intros Hy1 Hm1 Hd1 Hy2 Hm2 Hd2 H.
  apply year_string_tail_inj in H as [-> H]; [|done..].
  rewrite !(string_app_cons "-") in H. apply String_inv in H as [_ H].
  change ("" +:+ ?s) with s in H.
  apply string_app_inv in H as [Hm H]; [|by rewrite !length_pad_digits].
  apply String_inv in H as [_ H].
  change ("" +:+ ?s) with s in H.
  apply pad_digits_inj in Hm; [|simpl; lia..].
  apply pad_digits_inj in H; [|simpl; lia..].
  congruence.
Qed.

Lemma Day_range t : valid_time t -> -100000000 <= Js.Day t <= 100000000.
Proof.
  unfold valid_time, Js.Day, Js.msPerDay. intros H.
  Z.to_euclidean_division_equations; lia.
Qed.

(** Date strings are equal exactly for times of the same UTC day. *)
Lemma date_string_inj t1 t2 :
  valid_time t1 -> valid_time t2 ->
  Js.date_string t1 = Js.date_string t2 -> Js.Day t1 = Js.Day t2.
Proof.
  intros H1%Day_range H2%Day_range H. unfold Js.date_string in H.
  apply civil_from_days_inj.
  pose proof (civil_from_days_range _ H1) as R1.
  pose proof (civil_from_days_range _ H2) as R2.
  destruct (Js.civil_from_days (Js.Day t1)) as [[y1 m1] d1].
  destruct (Js.civil_from_days (Js.Day t2)) as [[y2 m2] d2].
  apply civil_date_inj; tauto.
Qed.

Lemma date_string_same_day t1 t2 :
  Js.Day t1 = Js.Day t2 -> Js.date_string t1 = Js.date_string t2.
Proof. unfold Js.date_string. by intros ->. Qed.

End DateInjective.

(** ** The Archiver: [uploadToR2] *)

Section Archiver.

(** What [uploadToR2] does, case by case. *)
Lemma uploadToR2_skip w filePath fileName :
  credentials_present w = false ->
  uploadToR2 w filePath fileName = ([Log [SKIP_NOTICE]], Ok false).
Proof.
  unfold credentials_present, uploadToR2. intros H.
  apply andb_false_iff in H.
  replace (negb (Js.truthy (R2_ACCESS_KEY_ID w))
           || negb (Js.truthy (R2_SECRET_ACCESS_KEY w))) with true; [done|].
  symmetry. apply orb_true_iff. rewrite !negb_true_iff. done.
Qed.

Lemma uploadToR2_attempt w filePath fileName :
  credentials_present w = true ->
  uploadToR2 w filePath fileName =
  match file_content w with
  | None =>
      ([Log [UPLOADING fileName]; Call (ReadFile filePath) false;
        LogError ["Failed to upload to R2:"; "call failed"]], Ok false)
  | Some fileContent =>
      let command := put_command w fileContent fileName in
      if send_ok w then
        ([Log [UPLOADING fileName]; Call (ReadFile filePath) true;
          Call (Send command) true;
          Log ["Successfully uploaded to R2: " +:+ Key command]], Ok true)
      else
        ([Log [UPLOADING fileName]; Call (ReadFile filePath) true;
          Call (Send command) false;
          LogError ["Failed to upload to R2:"; "call failed"]], Ok false)
  end.
Proof.
  unfold credentials_present, uploadToR2. intros H.
  apply andb_true_iff in H as [-> ->]. simpl.
  destruct (file_content w) as [c|]; [|done].
  by destruct (send_ok w).
Qed.

(** [uploadToR2] never throws. *)
Lemma uploadToR2_returns w filePath fileName :
  exists b, outcome (uploadToR2 w filePath fileName) = Ok b.
Proof.
  destruct (credentials_present w) eqn:E.
  - rewrite uploadToR2_attempt by done.
    destruct (file_content w); [destruct (send_ok w)|]; eauto.
  - rewrite uploadToR2_skip by done. eauto.
Qed.

Lemma SKIP_NOTICE_not_UPLOADING fileName : SKIP_NOTICE <> UPLOADING fileName.
Proof. discriminate. Qed.

End Archiver.

(** ** The structure of a run *)

Section RunStructure.

Lemma count_events_app p t1 t2 :
  count_events p (t1 ++ t2) = (count_events p t1 + count_events p t2)%nat.
Proof. induction t1 as [|e t1 IH]; simpl; [done|]. rewrite IH. lia. Qed.

Lemma count_events_none p tr :
  Forall (fun e => p e = false) tr -> count_events p tr = 0%nat.
Proof. induction 1 as [|e tr He _ IH]; simpl; [done|]. by rewrite He, IH. Qed.

Lemma existsb_none (p : event -> bool) tr :
  Forall (fun e => p e = false) tr -> existsb p tr = false.
Proof. induction 1 as [|e tr He _ IH]; simpl; [done|]. by rewrite He, IH. Qed.

Lemma run_opened w :
  session_opened w = true ->
  trace (run w) = SETUP ++ trace (guarded w) ++ trace (release w) /\
  outcome (run w) =
    match outcome (release w) with
    | Ok _ => outcome (guarded w)
    | Throw e => Throw e
    end.
Proof.
  unfold session_opened. rewrite !andb_true_iff. intros [[[Hd Hl] Hc] Hp].
  unfold run. rewrite Hd, Hl, Hc, Hp.
  pose proof (trace_try_finally (guarded w) (release w)) as Ht.
  pose proof (outcome_try_finally (guarded w) (release w)) as Ho.
  destruct (try_finally (guarded w) (release w)) as [t r].
  unfold trace, outcome in *. simpl in *. by subst.
Qed.

Lemma run_not_opened w :
  session_opened w = false ->
  Forall (fun e => is_close e = false) (trace (run w)) /\
  Forall (fun e => is_screenshot e = false) (trace (run w)) /\
  exists e, outcome (run w) = Throw e.
Proof.
  unfold session_opened, run. intros H.
  destruct (dirs_ok w), (launch_ok w), (newContext_ok w), (newPage_ok w);
    try discriminate H; cbn;
    (split_and!; [by repeat constructor.. | by eexists]).
Qed.

Lemma trace_release w :
  trace (release w) =
    Call BrowserClose (close_ok w) ::
    (if close_ok w then [Log ["Browser closed"]] else []).
Proof. unfold release. by destruct (close_ok w). Qed.

End RunStructure.

(** Splits a goal about [run w] along the answers of the world, in the
    order in which the run asks for them; [leaf] closes each case. The
    answers the handlers and the [finally] ask for come first. *)
Ltac run_cases w leaf :=
  unfold run, guarded, release, extract, error_handler, select_and_download,
    selector_handler, capture_and_archive, uploadToR2;
  destruct (shot_error_state_ok w), (page_url w) as [?|],
    (shot_error_page_ok w), (close_ok w);
  (destruct (dirs_ok w); [|leaf]);
  (destruct (launch_ok w); [|leaf]);
  (destruct (newContext_ok w); [|leaf]);
  (destruct (newPage_ok w); [|leaf]);
  (destruct (goto_ok w); [|leaf]);
  (destruct (settle_load_ok w); [|leaf]);
  (destruct (shot_initial_ok w); [|leaf]);
  (destruct (page_title w) as [?|]; [|leaf]);
  (destruct (selector_ok w); [|leaf]);
  (destruct (click_dropdown_ok w); [|leaf]);
  (destruct (settle_open_ok w); [|leaf]);
  (destruct (selectOption_ok w); [|leaf]);
  (destruct (settle_data_ok w); [|leaf]);
  (destruct (csv_visible w) as [[]|]; [|leaf|leaf]);
  (destruct (click_csv_ok w); [|leaf]);
  (destruct (download w) as [?|]; [|leaf]);
  (destruct (saveAs_ok w); [|leaf]);
  destruct (shot_after_ok w);
  (destruct (R2_ACCESS_KEY_ID w) as [[|? ?]|]; [leaf| |leaf]);
  (destruct (R2_SECRET_ACCESS_KEY w) as [[|? ?]|]; [leaf| |leaf]);
  (destruct (file_content w) as [?|]; [|leaf]);
  destruct (send_ok w); leaf.

(** ** The storage key (C1) *)

Section StorageKey.

Lemma storage_key_eq now fileName :
  storage_key now fileName =
  "nse-preopen/" +:+ Js.date_string now +:+ "/" +:+ fileName.
Proof. unfold storage_key. by rewrite split_T_toISOString. Qed.

Lemma storage_key_same_day t1 t2 fileName :
  Js.Day t1 = Js.Day t2 -> storage_key t1 fileName = storage_key t2 fileName.
Proof.
  intros H. rewrite !storage_key_eq. by rewrite (date_string_same_day _ _ H).
Qed.

(** Keys of different UTC days differ, whatever the file names. *)
Lemma storage_key_other_day t1 t2 f1 f2 :
  valid_time t1 -> valid_time t2 -> Js.Day t1 <> Js.Day t2 ->
  storage_key t1 f1 <> storage_key t2 f2.
Proof.
  intros H1 H2 Hne Heq. apply Hne, date_string_inj; [done..|].
  rewrite !storage_key_eq in Heq.
  apply (inj (String.app "nse-preopen/")) in Heq.
  apply (f_equal (Js.split_head "/")) in Heq.
  change ("/" +:+ ?f) with (String "/" f) in Heq.
  by rewrite !split_slash_date in Heq.
Qed.

(** Every command sent in a run is the one [uploadToR2] builds for the
    file name of the upload. *)
Lemma run_sends w :
  Forall (fun e => forall command ok, e = Call (Send command) ok ->
            exists suggestedFilename fileContent,
              download w = Some suggestedFilename /\
              command = put_command w fileContent (upload_name w suggestedFilename))
    (trace (run w)).
Proof.
  unfold run, guarded, release, extract, error_handler, select_and_download,
    selector_handler, capture_and_archive, uploadToR2.
  modular_walk; apply Forall_singleton; intros command ok' Heq;
    try discriminate Heq.
  injection Heq as <- _.
  match goal with
  | H : outcome (call_val (AwaitEvent _) (download w)) = Ok ?s |- _ =>
      exists s; destruct (download w); [|discriminate H];
      injection H as ->
  end.
  eauto.
Qed.

Lemma keys_have_category_nse_preopen : keys_have_category "nse-preopen".
Proof.
  intros w command ok Hin.
  pose proof (run_sends w) as Hall. rewrite Forall_forall in Hall.
  destruct (Hall _ Hin command ok eq_refl) as (s & c & Hs & ->).
  exists s. split; [done|]. simpl. by rewrite storage_key_eq.
Qed.

End StorageKey.

(** C1, as the code has it. The key of every object sent to the store in
    a run is [nse-preopen/ISO-date/fileName]: the category is
    [nse-preopen], the date is the UTC calendar date of the moment of the
    upload (the clock, not the file name), and the file name is the one
    handed to the Archiver. A time of the same UTC day gives the same key
    for that file name, and a time of another UTC day gives a different
    key for every file name. *)
Theorem storage_key_of_upload (w : World) (command : PutObjectCommand)
    (ok : bool) (t' : Z) (f' : string) :
  Call (Send command) ok ∈ trace (run w) ->
  valid_time (now_key w) -> valid_time t' ->
  exists suggestedFilename,
    download w = Some suggestedFilename /\
    Key command =
      "nse-preopen/" +:+ Js.date_string (now_key w) +:+ "/" +:+
      upload_name w suggestedFilename /\
    (Js.Day t' = Js.Day (now_key w) ->
     storage_key t' (upload_name w suggestedFilename) = Key command) /\
    (Js.Day t' <> Js.Day (now_key w) -> storage_key t' f' <> Key command).
Proof.
  intros Hin Hv Hv'.
  destruct (keys_have_category_nse_preopen w command ok Hin) as (s & Hs & Hkey).
  assert (Hk : Key command = storage_key (now_key w) (upload_name w s))
    by (rewrite storage_key_eq; exact Hkey).
  exists s. split_and!; [done|exact Hkey|..]; rewrite Hk.
  - by apply storage_key_same_day.
  - intros Hne. by apply storage_key_other_day.
Qed.

(** Archiving [preopen_20240924.csv] on 2024-09-24 (UTC): the key in the
    store, the same key one second later, and another key the day
    after. *)
Lemma storage_key_of_upload_witness :
  let command := put_command good_world [] "preopen_20240924.csv" in
  Call (Send command) true ∈ trace (run good_world) /\
  Key command = "nse-preopen/2024-09-24/preopen_20240924.csv" /\
  storage_key 1727149201400 "preopen_20240924.csv" = Key command /\
  storage_key 1727235600400 "preopen_20240924.csv" <> Key command.
Proof.
  intros command.
  assert (Hin : Call (Send command) true ∈ trace (run good_world)).
  { here 32%nat. }
  destruct (storage_key_of_upload good_world command true 1727149201400
              "preopen_20240924.csv" Hin) as (s & Hs & Hkey & Hsame & _);
    [unfold valid_time; simpl; lia..|].
  destruct (storage_key_of_upload good_world command true 1727235600400
              "preopen_20240924.csv" Hin) as (_ & _ & _ & _ & Hother);
    [unfold valid_time; simpl; lia..|].
  injection Hs as <-.
  split_and!; [done|done| |].
  - apply Hsame. reflexivity.
  - apply Hother. unfold Js.Day, Js.msPerDay. simpl. discriminate.
Defined.

(** C1 as stated fails on the category: the key of the upload of
    [preopen_20240924.csv] on 2024-09-24 does not start with
    [pre-open-market]. *)
Lemma storage_key_category_counterexample :
  ~ keys_have_category "pre-open-market".
Proof.
  intros H.
  destruct (H good_world (put_command good_world [] "preopen_20240924.csv") true)
    as (s & Hs & Hkey).
  - here 32%nat.
  - injection Hs as <-. vm_compute in Hkey. discriminate Hkey.
Qed.

(** ** Skipping the upload (C2) *)

Section Skip.

(** Without both credentials no run reads or sends anything. *)
Lemma run_without_credentials w :
  credentials_present w = false ->
  count_events is_transfer (trace (run w)) = 0%nat.
Proof.
  unfold credentials_present. intros H. revert H.
  run_cases w ltac:(first [reflexivity | intros H; discriminate H]).
Qed.

End Skip.

(** C2, as the code has it. The Archiver skips the upload exactly when at
    least one of the two credentials is absent or empty; the skip is a
    notice on the console and nothing else: the notice is all that the
    Archiver leaves on the trace, so that it makes no call (it reads
    nothing and sends nothing), it reports no error, and it returns
    [false]; and a run without both credentials has no read and no send
    on its trace. It attempts the upload exactly when both credentials are
    present: it announces the upload, reads the file at the path it was
    given and, when the file was read, sends the object. *)
Theorem upload_skipped_iff (w : World) (filePath fileName : string) :
  let tr := trace (uploadToR2 w filePath fileName) in
  (skipped tr <->
     Js.truthy (R2_ACCESS_KEY_ID w) = false \/
     Js.truthy (R2_SECRET_ACCESS_KEY w) = false) /\
  (attempted fileName tr <->
     Js.truthy (R2_ACCESS_KEY_ID w) = true /\
     Js.truthy (R2_SECRET_ACCESS_KEY w) = true) /\
  (skipped tr ->
     tr = [Log [SKIP_NOTICE]] /\
     (forall o ok, Call o ok ∉ tr) /\
     ~ error_reported tr /\ ~ attempted fileName tr /\
     outcome (uploadToR2 w filePath fileName) = Ok false) /\
  (attempted fileName tr ->
     (exists ok, Call (ReadFile filePath) ok ∈ tr) /\
     forall fileContent, file_content w = Some fileContent ->
     Call (Send (put_command w fileContent fileName)) (send_ok w) ∈ tr) /\
  (credentials_present w = false ->
     count_events is_transfer (trace (run w)) = 0%nat).
Proof.
  intros tr. subst tr. unfold skipped, attempted, error_reported.
  destruct (credentials_present w) eqn:Hc.
  - rewrite uploadToR2_attempt by done.
    apply andb_true_iff in Hc as [-> ->].
    destruct (file_content w) as [fileContent|]; [destruct (send_ok w)|];
      simpl; (split_and!;
        [ split; [intros Hin; not_here Hin | by intros [|]]
        | split; [done | intros _; split; [here 0%nat | eexists _, _; here 1%nat]]
        | intros Hin; not_here Hin
        | intros _; split;
          [eexists; here 1%nat | intros c' [= <-]; here 2%nat || done]
        | done ]).
  - rewrite uploadToR2_skip by done.
    pose proof (run_without_credentials w Hc) as Hrun.
    apply andb_false_iff in Hc.
    split_and!.
    + split; [done | intros _; here 0%nat].
    + split; [|intros [? ?]; destruct Hc; congruence].
      intros [Hin _]. not_here Hin.
    + intros _. split_and!; [done| | | |done].
      * intros o ok Hin. not_here Hin.
      * intros [args Hin]. not_here Hin.
      * intros [Hin _]. not_here Hin.
    + intros [Hin _]. not_here Hin.
    + done.
Qed.

(** C2 as stated fails when exactly one credential is set: with the
    access key id present and the secret absent, the Archiver skips. *)
Lemma upload_skipped_counterexample :
  let w := sample_world None true true "preopen_20240924.csv" in
  let tr := trace (uploadToR2 w "downloads/preopen_20240924.csv"
                     "preopen_20240924.csv") in
  ~ (R2_ACCESS_KEY_ID w = None /\ R2_SECRET_ACCESS_KEY w = None) /\
  skipped tr /\
  ~ attempted "preopen_20240924.csv" tr /\
  tr = [Log [SKIP_NOTICE]].
Proof.
  intros w tr. split_and!.
  - intros [H _]. discriminate H.
  - by left.
  - intros [Hin _]. apply list_elem_of_singleton in Hin. discriminate Hin.
  - reflexivity.
Qed.

(** ** The listener is armed before the click (C3) *)

Section ArmBeforeClick.

#[global] Instance armed_before_click_modular : Modular armed_before_click.
Proof.
  split.
  - intros i e H. by rewrite lookup_nil in H.
  - intros t1 t2 H1 H2 i e Hi He.
    destruct (decide (i < length t1)%nat) as [Hlt|Hge].
    + rewrite lookup_app_l in Hi by done.
      destruct (H1 i e Hi He) as (j & a & Hj & Ha & Harm).
      exists j, a. split_and!; [done| |done].
      rewrite lookup_app_l by lia. done.
    + rewrite lookup_app_r in Hi by lia.
      destruct (H2 _ e Hi He) as (j & a & Hj & Ha & Harm).
      exists (length t1 + j)%nat, a. split_and!; [lia| |done].
      rewrite lookup_app_r by lia.
      by replace (length t1 + j - length t1)%nat with j by lia.
Qed.

Lemma armed_single e : is_trigger_click e = false -> armed_before_click [e].
Proof.
  intros He [|i] e' Hi Hc; simpl in Hi; [|by rewrite lookup_nil in Hi].
  injection Hi as <-. congruence.
Qed.

(** Once the listener is armed first, whatever follows is in order. *)
Lemma armed_first a tr :
  is_arm a = true -> is_trigger_click a = false -> armed_before_click (a :: tr).
Proof.
  intros Ha Hn [|i] e Hi He; simpl in Hi.
  - injection Hi as <-. congruence.
  - exists 0%nat, a. split_and!; [lia|done|done].
Qed.

Lemma armed_then {A} (k : unit -> M A) :
  armed_before_click
    (trace (Eff.bind (call (WaitForEvent "download") true) k)).
Proof.
  rewrite trace_bind. simpl. by apply armed_first.
Qed.

End ArmBeforeClick.

(** C3. In every run, each click on the download trigger comes after the
    arming of the download listener: the trace has the [waitForEvent]
    call at a strictly smaller position than the click. *)
Theorem listener_armed_before_click (w : World) :
  armed_before_click (trace (run w)).
Proof.
  unfold run, guarded, release, extract, error_handler, select_and_download,
    selector_handler, capture_and_archive.
  repeat first [apply armed_then | modular_step];
    by apply armed_single.
Qed.

(** The run in which everything succeeds. *)
Example good_world_run :
  let tr := trace (run good_world) in
  outcome (run good_world) = Ok tt /\
  run_outcome tr = Completed /\
  closes tr = 1%nat /\
  capture_attempts tr = 2%nat /\
  count_events is_capturer tr = 5%nat /\
  count_events is_archiver tr = 4%nat.
Proof. split_and!; reflexivity. Qed.

Example good_world_click_after_arm :
  trace (run good_world) !! 24%nat = Some (Call (WaitForEvent "download") true) /\
  trace (run good_world) !! 25%nat = Some (Call (ClickLocator CSV_LOCATOR) true).
Proof. split; reflexivity. Qed.

(** ** The session is closed exactly once (C4) *)

Section SessionClose.

Lemma guarded_no_close w :
  Forall (fun e => is_close e = false) (trace (guarded w)).
Proof.
  unfold guarded, extract, error_handler, select_and_download,
    selector_handler, capture_and_archive, uploadToR2.
  modular_walk; by repeat constructor.
Qed.

Lemma last_call_app t1 t2 :
  last_call (t1 ++ t2) =
  match last_call t2 with Some o => Some o | None => last_call t1 end.
Proof.
  induction t1 as [|e t1 IH]; simpl; [by destruct (last_call t2)|].
  rewrite IH. by destruct (last_call t2).
Qed.

Lemma closes_release w : closes (trace (release w)) = 1%nat.
Proof. unfold release. by destruct (close_ok w). Qed.

End SessionClose.

(** C4. The browser is closed exactly once in every run that opened a
    session, whatever happens in between and however the run ends, and
    the close is the last call of the run, so no run ends with the session
    open. A run that failed before its session existed closes nothing. No
    run closes twice. *)
Theorem session_closed_exactly_once (w : World) :
  if session_opened w
  then closes (trace (run w)) = 1%nat /\
       last_call (trace (run w)) = Some BrowserClose
  else closes (trace (run w)) = 0%nat.
Proof.
  destruct (session_opened w) eqn:Hopen.
  - destruct (run_opened w Hopen) as [-> _]. split.
    + unfold closes. rewrite !count_events_app.
      rewrite (count_events_none _ _ (guarded_no_close w)).
      fold (closes (trace (release w))). by rewrite closes_release.
    + rewrite !last_call_app. unfold release. by destruct (close_ok w).
  - destruct (run_not_opened w Hopen) as (H & _ & _).
    by apply count_events_none.
Qed.

(** The three ways a run with a session ends, each with one close: the
    artifact is stored, the control does not appear, the navigation
    fails. *)
Example closes_at_each_outcome :
  let completed := trace (run good_world) in
  let partial :=
    trace (run (sample_world (Some "secret") true false "preopen_20240924.csv")) in
  let fatal :=
    trace (run (sample_world (Some "secret") false true "preopen_20240924.csv")) in
  (run_outcome completed = Completed /\ closes completed = 1%nat) /\
  (run_outcome partial = PartialFailure /\ closes partial = 1%nat) /\
  (run_outcome fatal = FatalFailure /\ closes fatal = 1%nat).
Proof. repeat split; reflexivity. Qed.

(** ** Failures of the diagnostic captures (C5) *)

Section CaptureFailures.

(** The outer handler never throws. *)
Lemma outcome_error_handler w message : outcome (error_handler w message) = Ok tt.
Proof.
  unfold error_handler.
  destruct (page_url w) as [url|]; [destruct (shot_error_page_ok w)|]; done.
Qed.

Lemma outcome_guarded w : outcome (guarded w) = Ok tt.
Proof.
  unfold guarded. rewrite outcome_try_catch.
  destruct (outcome (extract w)) as [[]|e]; [done|apply outcome_error_handler].
Qed.

(** Nothing escapes a run whose session was opened and is closed. *)
Lemma run_returns w :
  session_opened w = true -> close_ok w = true -> outcome (run w) = Ok tt.
Proof.
  intros Hopen Hclose. destruct (run_opened w Hopen) as [_ ->].
  unfold release. rewrite Hclose. simpl. apply outcome_guarded.
Qed.

(** The outer handler reports the fatal error first. *)
Lemma error_handler_reports w message :
  existsb is_fatal_report (trace (error_handler w message)) = true.
Proof.
  unfold error_handler. rewrite trace_bind. reflexivity.
Qed.

Lemma error_handler_stores_nothing w message :
  existsb is_stored (trace (error_handler w message)) = false.
Proof.
  unfold error_handler.
  destruct (page_url w) as [url|]; [destruct (shot_error_page_ok w)|]; done.
Qed.

(** A world that differs from another in the answer of the fatal-error
    capture only is classified like it. *)
Lemma run_outcome_error_page i a s p p' w :
  run_outcome (trace (run (set_shots i a s p w))) =
  run_outcome (trace (run (set_shots i a s p' w))).
Proof.
  destruct (session_opened w) eqn:Hopen.
  - destruct (run_opened (set_shots i a s p w) Hopen) as [-> _].
    destruct (run_opened (set_shots i a s p' w) Hopen) as [-> _].
    change (release (set_shots i a s p w)) with (release (set_shots i a s p' w)).
    unfold guarded. rewrite !trace_try_catch.
    change (extract (set_shots i a s p w)) with (extract (set_shots i a s p' w)).
    destruct (outcome (extract (set_shots i a s p' w))) as [[]|e]; [done|].
    unfold run_outcome.
    rewrite !existsb_app, !error_handler_reports, !orb_true_r. done.
  - unfold session_opened in Hopen. unfold run. simpl.
    destruct (dirs_ok w), (launch_ok w), (newContext_ok w), (newPage_ok w);
      try discriminate Hopen; reflexivity.
Qed.

Lemma fatal_capture_neutral : capture_neutral FatalError.
Proof. intros w. apply run_outcome_error_page. Qed.

(** The events of [extract]: no capture of the fatal-error checkpoint. *)
Lemma extract_no_error_page w :
  Forall (fun e => forall ok, e <> Call (Screenshot ERROR_PAGE_PATH) ok)
    (trace (extract w)).
Proof.
  unfold extract, select_and_download, selector_handler, capture_and_archive,
    uploadToR2.
  modular_walk; apply Forall_singleton; intros ok' Heq; discriminate Heq.
Qed.

(** A failed fatal-error capture is reported on the console. *)
Lemma failed_error_page_logged w :
  Call (Screenshot ERROR_PAGE_PATH) false ∈ trace (run w) ->
  Log ["Could not take error screenshot"] ∈ trace (run w).
Proof.
  destruct (session_opened w) eqn:Hopen.
  - destruct (run_opened w Hopen) as [-> _].
    unfold guarded. rewrite trace_try_catch, trace_release.
    rewrite !elem_of_app. intros [Hin|[[Hin|Hin]|Hin]].
    + not_here Hin.
    + pose proof (extract_no_error_page w) as Hall. rewrite Forall_forall in Hall.
      by destruct (Hall _ Hin false).
    + right. left. right.
      destruct (outcome (extract w)) as [[]|e]; [by apply elem_of_nil in Hin|].
      revert Hin. unfold error_handler.
      destruct (page_url w) as [url|]; [destruct (shot_error_page_ok w)|];
        cbn; intros Hin;
        repeat (apply elem_of_cons in Hin as [Hin|Hin];
                [try discriminate Hin|]);
        try (by apply elem_of_nil in Hin); set_solver.
    + destruct (close_ok w); not_here Hin.
  - destruct (run_not_opened w Hopen) as (_ & H & _).
    rewrite Forall_forall in H. intros Hin. by apply H in Hin.
Qed.

End CaptureFailures.

Section FailuresLogged.

Lemma checkpoint_at_path cp : checkpoint_at (checkpoint_path cp) = Some cp.
Proof. by destruct cp. Qed.

Lemma failures_followed_logged tr :
  failures_followed tr = true -> forall cp, failure_logged cp tr.
Proof.
  induction tr as [|e tr IH]; intros H cp i Hi; [by rewrite lookup_nil in Hi|].
  simpl in H. apply andb_true_iff in H as [He Htr].
  destruct i as [|i]; [|by apply (IH Htr cp i)].
  simpl in Hi. injection Hi as ->.
  rewrite checkpoint_at_path in He. apply bool_decide_eq_true in He.
  by destruct tr.
Qed.

(** In every run, the event after a failed capture is the line of the
    handler that catches the failure. *)
Lemma run_failures_followed w : failures_followed (trace (run w)) = true.
Proof. run_cases w ltac:(reflexivity). Qed.

End FailuresLogged.

(** C5, as the code has it. A failure of a diagnostic capture is caught
    and logged at every checkpoint, and never escapes the run: with the
    session opened and closed, [run] returns normally at every checkpoint
    and for every answer of its capture, and wherever a capture fails the
    next event of the run is the line of the handler that catches the
    failure (the report of the outer handler for the initial and the
    post-selection-error capture, the line of the inner handler for the
    post-download capture, the line of its own handler for the
    fatal-error capture). A failure of the fatal-error capture leaves the
    classification of the run as it is with the capture taken. (The
    other three captures are caught by the handler around them, which can
    change the classification.) *)
Theorem capture_failures_are_caught (w : World) (cp : Checkpoint) (ok : bool) :
  session_opened w = true ->
  close_ok w = true ->
  outcome (run (set_capture cp ok w)) = Ok tt /\
  failure_logged cp (trace (run w)) /\
  run_outcome (trace (run (set_capture FatalError false w))) =
    run_outcome (trace (run (set_capture FatalError true w))) /\
  (Call (Screenshot ERROR_PAGE_PATH) false ∈ trace (run w) ->
   Log ["Could not take error screenshot"] ∈ trace (run w)).
Proof.
  intros Hopen Hclose. split_and!.
  - apply run_returns; by destruct cp.
  - apply failures_followed_logged, run_failures_followed.
  - apply fatal_capture_neutral.
  - apply failed_error_page_logged.
Qed.

(** The navigation fails and then the fatal-error capture fails too. *)
Lemma capture_failures_are_caught_witness :
  let w := set_shots true true true false
             (sample_world (Some "secret") false true "preopen_20240924.csv") in
  outcome (run w) = Ok tt /\
  trace (run w) !! 10%nat = Some (Call (Screenshot ERROR_PAGE_PATH) false) /\
  trace (run w) !! 11%nat = Some (Log ["Could not take error screenshot"]) /\
  run_outcome (trace (run w)) = FatalFailure /\
  run_outcome (trace (run (set_capture FatalError true w))) = FatalFailure /\
  Log ["Could not take error screenshot"] ∈ trace (run w).
Proof.
  intros w.
  destruct (capture_failures_are_caught w FatalError false eq_refl eq_refl)
    as (H1 & H2 & H3 & H4).
  split_and!; [exact H1 | reflexivity | exact (H2 10%nat eq_refl) | reflexivity
              | by rewrite <- H3 |].
  apply H4. here 10%nat.
Defined.

(** The failures of the other three captures, each with its line: the
    initial capture in the run in which all else succeeds, the
    post-download capture in that run, and the post-selection-error
    capture in the run whose control does not appear. *)
Example capture_failures_logged :
  let initial := trace (run (set_capture Initial false good_world)) in
  let after := trace (run (set_capture PostDownload false good_world)) in
  let state :=
    trace (run (set_capture PostSelectionError false
                  (sample_world (Some "secret") true false "preopen_20240924.csv"))) in
  (initial !! 10%nat = Some (Call (Screenshot SCREENSHOT_PATH) false) /\
   initial !! 11%nat = Some (failure_line Initial)) /\
  (after !! 34%nat = Some (Call (Screenshot AFTER_DOWNLOAD_PATH) false) /\
   after !! 35%nat = Some (failure_line PostDownload)) /\
  (state !! 16%nat = Some (Call (Screenshot ERROR_STATE_PATH) false) /\
   state !! 17%nat = Some (failure_line PostSelectionError)).
Proof. split_and!; reflexivity. Qed.

(** C5 as stated fails at the initial checkpoint: with every other call
    succeeding, the run is [Completed] when the initial capture is
    taken and a [FatalFailure] when it fails. *)
Lemma capture_neutral_counterexample :
  let taken := trace (run (set_capture Initial true good_world)) in
  let failed := trace (run (set_capture Initial false good_world)) in
  run_outcome taken = Completed /\
  run_outcome failed = FatalFailure /\
  existsb is_stored taken = true /\
  count_events is_archiver failed = 0%nat /\
  ~ capture_neutral Initial.
Proof.
  split_and!; [reflexivity..|].
  intros H. specialize (H good_world). discriminate H.
Qed.

(** The same happens at the post-download checkpoint when the capture of
    the handler that catches it fails as well, with the artifact already
    stored. *)
Example post_download_capture_not_neutral :
  let w := set_shots true true false true good_world in
  run_outcome (trace (run (set_capture PostDownload true w))) = Completed /\
  run_outcome (trace (run (set_capture PostDownload false w))) = FatalFailure /\
  existsb is_stored (trace (run (set_capture PostDownload false w))) = true.
Proof. split_and!; reflexivity. Qed.

(** ** The control does not appear (C6) *)

Section ControlAbsent.

(** The run of a world whose control does not appear, up to the
    [finally]. *)
Lemma guarded_control_not_found w title :
  goto_ok w = true -> settle_load_ok w = true -> shot_initial_ok w = true ->
  page_title w = Some title -> selector_ok w = false ->
  trace (guarded w) =
    [Log ["Navigating to " +:+ TARGET_URL]; Call (Goto TARGET_URL 30000) true;
     Log ["Waiting for page to load completely..."];
     Call (WaitForTimeout 8000) true;
     Log ["Taking initial screenshot..."];
     Call (Screenshot SCREENSHOT_PATH) true;
     Call Title true; Log ["Page title:"; title];
     Log ["Looking for Category dropdown..."];
     Call (WaitForSelector CATEGORY_SELECTOR 15000) false;
     Log ["Could not find Category dropdown or CSV button:"; "call failed"];
     Call (Screenshot ERROR_STATE_PATH) (shot_error_state_ok w)] ++
    (if shot_error_state_ok w
     then [Log ["Pre-open market data extraction completed"]]
     else
       LogError [AUTOMATION_ERROR; "call failed"] ::
       match page_url w with
       | Some currentUrl =>
           [Call PageUrl true; Log ["Current URL at error:"; currentUrl];
            Call (Screenshot ERROR_PAGE_PATH) (shot_error_page_ok w)] ++
           (if shot_error_page_ok w then []
            else [Log ["Could not take error screenshot"]])
       | None =>
           [Call PageUrl false; Log ["Could not take error screenshot"]]
       end).
Proof.
  intros Hgoto Hsettle Hshot Htitle Hsel.
  unfold guarded, extract, select_and_download, selector_handler, error_handler.
  rewrite Hgoto, Hsettle, Hshot, Htitle, Hsel.
  destruct (shot_error_state_ok w); [done|].
  destruct (page_url w) as [url|]; [destruct (shot_error_page_ok w)|]; done.
Qed.

End ControlAbsent.

(** C6, as the code has it. When the scope-selection control does not
    appear, the Download Capturer is never entered (the trigger is neither
    looked up nor clicked), the Archiver is not invoked, and the
    post-selection-error capture is attempted; when that capture succeeds
    the run is a [PartialFailure], not a [FatalFailure]. *)
Theorem control_absence_is_partial (w : World) :
  control_not_found w ->
  let tr := trace (run w) in
  count_events is_capturer tr = 0%nat /\
  count_events is_archiver tr = 0%nat /\
  capture_attempted ERROR_STATE_PATH tr /\
  (shot_error_state_ok w = true ->
   run_outcome tr = PartialFailure /\ captured ERROR_STATE_PATH tr).
Proof.
  intros (Hopen & Hgoto & Hsettle & Hshot & [title Htitle] & Hsel) tr. subst tr.
  destruct (run_opened w Hopen) as [-> _].
  rewrite (guarded_control_not_found w title) by done.
  rewrite trace_release.
  split_and!.
  - destruct (shot_error_state_ok w), (page_url w), (shot_error_page_ok w),
      (close_ok w); reflexivity.
  - destruct (shot_error_state_ok w), (page_url w), (shot_error_page_ok w),
      (close_ok w); reflexivity.
  - exists (shot_error_state_ok w).
    here 16%nat.
  - intros Hok. rewrite Hok. split.
    + by destruct (close_ok w).
    + here 16%nat.
Qed.

(** A run on a page without the control. *)
Lemma control_absence_is_partial_witness :
  let w := set_shots true true true true
             (sample_world (Some "secret") true false "preopen_20240924.csv") in
  count_events is_capturer (trace (run w)) = 0%nat /\
  run_outcome (trace (run w)) = PartialFailure /\
  captured ERROR_STATE_PATH (trace (run w)).
Proof.
  intros w.
  assert (Hw : control_not_found w).
  { unfold control_not_found. split_and!; try reflexivity. by eexists. }
  destruct (control_absence_is_partial w Hw) as (H1 & _ & _ & H4).
  destruct (H4 eq_refl) as [H5 H6].
  split_and!; [exact H1 | exact H5 | exact H6].
Defined.

(** C6 as stated fails when the post-selection-error capture itself
    fails: the error reaches the outer handler, the run is a
    [FatalFailure], and the capture is not there. *)
Lemma control_absence_counterexample :
  let w := set_shots true true false true
             (sample_world (Some "secret") true false "preopen_20240924.csv") in
  control_not_found w /\
  run_outcome (trace (run w)) = FatalFailure /\
  ~ captured ERROR_STATE_PATH (trace (run w)) /\
  ~ control_absence_handled w.
Proof.
  intros w.
  assert (Hw : control_not_found w).
  { unfold control_not_found. split_and!; try reflexivity. by eexists. }
  split_and!; [exact Hw | reflexivity | |].
  - unfold captured. vm_compute. intros Hin. not_here Hin.
  - intros H. destruct (H Hw) as (Hout & _). discriminate Hout.
Qed.

(** ** Navigation failure (C7) *)

Section NavigationFailure.

(** The run of a world whose navigation fails, up to the [finally]. *)
Lemma guarded_navigation_failure w :
  goto_ok w = false ->
  trace (guarded w) =
    [Log ["Navigating to " +:+ TARGET_URL]; Call (Goto TARGET_URL 30000) false;
     LogError [AUTOMATION_ERROR; "call failed"]] ++
    match page_url w with
    | Some currentUrl =>
        [Call PageUrl true; Log ["Current URL at error:"; currentUrl];
         Call (Screenshot ERROR_PAGE_PATH) (shot_error_page_ok w)] ++
        (if shot_error_page_ok w then []
         else [Log ["Could not take error screenshot"]])
    | None =>
        [Call PageUrl false; Log ["Could not take error screenshot"]]
    end /\
  outcome (guarded w) = Ok tt.
Proof.
  intros Hgoto. unfold guarded, extract, error_handler. rewrite Hgoto.
  destruct (page_url w) as [url|]; [destruct (shot_error_page_ok w)|]; done.
Qed.

End NavigationFailure.

(** C7. When the navigation to the target fails, the run is a
    [FatalFailure], the Archiver is not invoked (nothing of [uploadToR2]
    is on the trace), and exactly one diagnostic capture is attempted
    when the URL of the page can still be read (none when it cannot);
    that capture is the one of the fatal-error checkpoint. *)
Theorem navigation_failure_is_fatal (w : World) :
  session_opened w = true ->
  goto_ok w = false ->
  let tr := trace (run w) in
  run_outcome tr = FatalFailure /\
  count_events is_archiver tr = 0%nat /\
  capture_attempts tr = match page_url w with Some _ => 1%nat | None => 0%nat end /\
  (forall path, capture_attempted path tr -> path = ERROR_PAGE_PATH).
Proof.
  intros Hopen Hgoto tr. subst tr.
  destruct (run_opened w Hopen) as [-> _].
  destruct (guarded_navigation_failure w Hgoto) as [-> _].
  rewrite trace_release.
  destruct (page_url w) as [url|], (shot_error_page_ok w), (close_ok w);
    (split_and!; [reflexivity..|]);
    intros path [ok Hin];
    repeat (apply elem_of_cons in Hin as [Hin|Hin];
            [first [discriminate Hin | by injection Hin as -> _]|]);
    by apply elem_of_nil in Hin.
Qed.

(** A run whose navigation times out while the page URL stays
    readable. *)
Lemma navigation_failure_is_fatal_witness :
  let w := set_shots true true true true
             (sample_world (Some "secret") false true "preopen_20240924.csv") in
  run_outcome (trace (run w)) = FatalFailure /\
  count_events is_archiver (trace (run w)) = 0%nat /\
  capture_attempts (trace (run w)) = 1%nat.
Proof.
  intros w.
  destruct (navigation_failure_is_fatal w eq_refl eq_refl) as (H1 & H2 & H3 & _).
  split_and!; [exact H1 | exact H2 | exact H3].
Defined.

(** ** The file name of the artifact (C8) *)

Section ArtifactName.

Lemma or_else_nonempty a b : b <> "" -> Js.or_else a b <> "".
Proof.
  intros Hb. unfold Js.or_else. destruct a as [s|]; [|done].
  destruct (String.eqb s "") eqn:E; [done|]. by apply String.eqb_neq.
Qed.

Lemma synthesized_name_nonempty now : synthesized_name now <> "".
Proof. discriminate. Qed.

(** The Archiver never receives an empty file name. *)
Lemma upload_name_nonempty w suggested : upload_name w suggested <> "".
Proof. apply or_else_nonempty, synthesized_name_nonempty. Qed.

Lemma length_string_app s r :
  String.length (s +:+ r) = (String.length s + String.length r)%nat.
Proof.
  induction s as [|a s IH]; [done|].
  rewrite string_app_cons. simpl. by rewrite IH.
Qed.

Lemma string_app_inj_r s1 s2 r : s1 +:+ r = s2 +:+ r -> s1 = s2.
Proof.
  intros H. apply (string_app_inv s1 s2 r r); [|done].
  apply (f_equal String.length) in H. rewrite !length_string_app in H. lia.
Qed.

(** Names synthesized at different instants differ. *)
Lemma synthesized_name_inj t1 t2 :
  synthesized_name t1 = synthesized_name t2 -> t1 = t2.
Proof.
  unfold synthesized_name. intros H.
  apply (inj (String.app "pre-open-data-")) in H.
  apply string_app_inj_r in H. by apply (inj pretty) in H.
Qed.

(** The name of the local file and the name handed to the Archiver agree
    when the download suggests a name, and otherwise exactly when the
    clock did not move between the two places that read it. *)
Lemma names_agree_suggested w suggested :
  suggested <> "" ->
  saved_name w suggested = suggested /\ upload_name w suggested = suggested.
Proof.
  intros H. apply String.eqb_neq in H.
  unfold saved_name, upload_name, Js.or_else. by rewrite H.
Qed.

Lemma names_agree_unnamed w :
  saved_name w "" = upload_name w "" <-> now_path w = now_name w.
Proof.
  unfold saved_name, upload_name. simpl. split.
  - apply synthesized_name_inj.
  - by intros ->.
Qed.

End ArtifactName.

(** C8 at its failing input. The download suggests no file name and the
    clock moves by 350 ms while the file is saved: the file is saved as
    [pre-open-data-1727149200000.csv], and the Archiver is handed
    [pre-open-data-1727149200350.csv], which is the name in the key of the
    stored object. *)
Theorem unnamed_download_names_differ :
  let w := sample_world (Some "secret") true true "" in
  let tr := trace (run w) in
  let saved := Path.join DOWNLOADS_PATH (saved_name w "") in
  let command := put_command w [] (upload_name w "") in
  Call (SaveAs saved) true ∈ tr /\
  Call (ReadFile saved) true ∈ tr /\
  Call (Send command) true ∈ tr /\
  Path.basename saved = "pre-open-data-1727149200000.csv" /\
  upload_name w "" = "pre-open-data-1727149200350.csv" /\
  Key command = "nse-preopen/2024-09-24/pre-open-data-1727149200350.csv" /\
  Path.basename saved <> upload_name w "".
Proof.
  intros w tr saved command. split_and!.
  - here 28%nat.
  - here 31%nat.
  - here 32%nat.
  - reflexivity.
  - reflexivity.
  - reflexivity.
  - discriminate.
Qed.

(** ** The rate limiter (C9) *)

Section RateLimit.

Import Api.

Variable route : Request -> Response.

#[local] Arguments middleware : simpl never.

Implicit Types (limiters : gmap string (list Z)) (rs : list Request)
  (log : list (Request * bool * Response)).

Lemma fetch_eq now requests :
  RateLimiter.fetch now requests =
  if decide (RateLimiter.MAX_REQUESTS <= length (filter (within now) requests))%nat
  then (filter (within now) requests, false)
  else (filter (within now) requests ++ [now], true).
Proof. reflexivity. Qed.

(** A later clock sees through an earlier clean-up. *)
Lemma filter_within_later now now' (l : list Z) :
  now <= now' -> filter (within now') (filter (within now) l) = filter (within now') l.
Proof. intros H. apply list_filter_filter_l. unfold within. lia. Qed.

Lemma limiters_after_snoc limiters rs r :
  limiters_after route limiters (rs ++ [r]) =
  (middleware (limiters_after route limiters rs) r (route r)).1.1.
Proof. unfold limiters_after. by rewrite fold_left_app. Qed.

Lemma serve_snoc rs : forall limiters r,
  serve route limiters (rs ++ [r]) =
  serve route limiters rs ++
  [(r, (middleware (limiters_after route limiters rs) r (route r)).1.2,
       (middleware (limiters_after route limiters rs) r (route r)).2)].
Proof.
  induction rs as [|r0 rs IH]; intros limiters r.
  - simpl. by destruct (middleware limiters r (route r)) as [[??]?].
  - simpl. destruct (middleware limiters r0 (route r0)) as [[L' a] resp] eqn:E.
    simpl. rewrite IH. unfold limiters_after. simpl. by rewrite ?E.
Qed.

Lemma serve_requests rs : forall limiters,
  (fun e : Request * bool * Response => e.1.1) <$> serve route limiters rs = rs.
Proof.
  induction rs as [|r rs IH]; intros limiters; [done|].
  simpl. destruct (middleware limiters r (route r)) as [[L' a] resp].
  simpl. by rewrite IH.
Qed.

Lemma length_serve rs limiters : length (serve route limiters rs) = length rs.
Proof.
  rewrite <- (serve_requests rs limiters) at 2. by rewrite length_fmap.
Qed.

Lemma serve_take rs : forall limiters n,
  take n (serve route limiters rs) = serve route limiters (take n rs).
Proof.
  induction rs as [|r rs IH]; intros limiters [|n]; try done.
  simpl. destruct (middleware limiters r (route r)) as [[L' a] resp].
  simpl. by rewrite IH.
Qed.

Lemma allowed_times_snoc ip log e :
  allowed_times ip (log ++ [e]) =
  allowed_times ip log ++
  (if decide (caller e.1.1 = ip /\ e.1.2 = true) then [arrival e.1.1] else []).
Proof.
  unfold allowed_times. rewrite omap_app. f_equal. simpl.
  by destruct (decide _).
Qed.

Lemma clock_monotone_snoc rs r :
  clock_monotone (rs ++ [r]) ->
  clock_monotone rs /\
  forall r', r' ∈ rs -> caller r' = caller r -> arrival r' <= arrival r.
Proof.
  intros H. split.
  - intros i j ri rj Hij Hi Hj. apply (H i j); [done|..].
    + by apply lookup_app_l_Some.
    + by apply lookup_app_l_Some.
  - intros r' [i Hi]%list_elem_of_lookup. apply (H i (length rs)).
    + apply lookup_lt_Some in Hi. lia.
    + by apply lookup_app_l_Some.
    + by rewrite lookup_app_r, Nat.sub_diag.
Qed.

Lemma limiter_state_insert limiters ip requests ip' :
  limiter_state (<[ip := requests]> limiters) ip' =
  if decide (ip = ip') then requests else limiter_state limiters ip'.
Proof.
  unfold limiter_state. rewrite lookup_insert. by destruct (decide (ip = ip')).
Qed.

Lemma serve_invariant rs :
  clock_monotone rs ->
  limiter_invariant (limiters_after route ∅ rs) rs (serve route ∅ rs).
Proof.
  induction rs as [|r rs IH] using rev_ind; intros Hmono.
  - split.
    + intros ip now' _. unfold limiter_state. simpl. by rewrite lookup_empty.
    + intros ip start. simpl. unfold RateLimiter.MAX_REQUESTS. lia.
  - apply clock_monotone_snoc in Hmono as [Hmono Hlast].
    destruct (IH Hmono) as [Hstate Hwindow]. clear IH.
    rewrite limiters_after_snoc, serve_snoc.
    set (L := limiters_after route ∅ rs) in *.
    set (log := serve route ∅ rs) in *.
    unfold middleware. rewrite fetch_eq.
    set (kept := filter (within (arrival r)) (limiter_state L (caller r))).
    assert (Hkept : kept = filter (within (arrival r)) (allowed_times (caller r) log)).
    { apply Hstate. intros r' Hr' Hc. by apply Hlast. }
    destruct (decide (RateLimiter.MAX_REQUESTS <= length kept)%nat) as [Hfull|Hroom];
      simpl.
    + (* rejected *)
      split.
      * intros ip now' Hnow'. rewrite allowed_times_snoc. simpl.
        rewrite decide_False by (intros [_ ?]; done). rewrite app_nil_r.
        rewrite limiter_state_insert. destruct (decide (caller r = ip)) as [<-|Hne].
        -- unfold kept. rewrite filter_within_later.
           ++ apply Hstate. intros r' Hr'. apply Hnow'. set_solver.
           ++ apply Hnow'; [set_solver|done].
        -- apply Hstate. intros r' Hr'. apply Hnow'. set_solver.
      * intros ip start. rewrite allowed_times_snoc. simpl.
        rewrite decide_False by (intros [_ ?]; done). rewrite app_nil_r.
        apply Hwindow.
    + (* allowed *)
      split.
      * intros ip now' Hnow'. rewrite allowed_times_snoc. simpl.
        rewrite limiter_state_insert. destruct (decide (caller r = ip)) as [<-|Hne].
        -- rewrite decide_True by done.
           rewrite !filter_app. f_equal. unfold kept.
           rewrite filter_within_later.
           ++ apply Hstate. intros r' Hr'. apply Hnow'. set_solver.
           ++ apply Hnow'; [set_solver|done].
        -- rewrite decide_False by (intros [? _]; done). rewrite app_nil_r.
           apply Hstate. intros r' Hr'. apply Hnow'. set_solver.
      * intros ip start. rewrite allowed_times_snoc. simpl.
        destruct (decide (caller r = ip /\ true = true)) as [[<- _]|Hne];
          [|rewrite app_nil_r; apply Hwindow].
        rewrite filter_app, length_app.
        destruct (decide (in_window start (arrival r))) as [Hin|Hout].
        -- rewrite filter_singleton_True by done. simpl.
           assert (length (filter (in_window start) (allowed_times (caller r) log))
                   <= length kept)%nat; [|lia].
           rewrite Hkept.
           rewrite <- (list_filter_filter_l (in_window start) (within (arrival r))).
           ++ apply length_filter.
           ++ unfold in_window, within in *. lia.
        -- rewrite filter_singleton_False by done. simpl.
           specialize (Hwindow (caller r) start). lia.
Qed.

Lemma clock_monotone_take rs n : clock_monotone rs -> clock_monotone (take n rs).
Proof.
  intros H i j ri rj Hij Hi Hj.
  apply lookup_take_Some in Hi as [Hi _]. apply lookup_take_Some in Hj as [Hj _].
  by apply (H i j).
Qed.

(** The answer to the request at position [i] of a sequence. *)
Lemma serve_lookup rs i r allowed response :
  serve route ∅ rs !! i = Some (r, allowed, response) ->
  rs !! i = Some r /\
  (middleware (limiters_after route ∅ (take i rs)) r (route r)).1.2 = allowed /\
  (middleware (limiters_after route ∅ (take i rs)) r (route r)).2 = response.
Proof.
  intros Hi.
  assert (Hr : rs !! i = Some r).
  { rewrite <- (serve_requests rs ∅), list_lookup_fmap, Hi. done. }
  split; [done|].
  assert (Hlast : take (S i) (serve route ∅ rs) !! i = Some (r, allowed, response)).
  { rewrite lookup_take_lt by lia. done. }
  rewrite serve_take, (take_S_r _ _ _ Hr), serve_snoc in Hlast.
  rewrite lookup_app_r in Hlast by (rewrite length_serve, length_take; lia).
  rewrite length_serve, length_take in Hlast.
  apply lookup_lt_Some in Hr.
  replace (i - i `min` length rs)%nat with 0%nat in Hlast by lia.
  simpl in Hlast. by injection Hlast as -> ->.
Qed.

End RateLimit.

(** C9. For every caller and every sequence of requests whose clock
    does not go back, the requests of the caller that are allowed with a
    timestamp in a window of 60000 ms ([start <= t < start + 60000]) are
    at most 30, whatever the start of the window; and a request that
    arrives when 30 allowed requests of its caller are less than 60000 ms
    old is rejected: the API answers it with the error payload and status
    429. *)
Theorem rate_limit_window (route : Api.Request -> Api.Response)
    (rs : list Api.Request) (ip : string) (start : Z) (i : nat)
    (r : Api.Request) (allowed : bool) (response : Api.Response) :
  clock_monotone rs ->
  let log := Api.serve route ∅ rs in
  (length (filter (in_window start) (allowed_times ip log))
   <= RateLimiter.MAX_REQUESTS)%nat /\
  (log !! i = Some (r, allowed, response) ->
   (RateLimiter.MAX_REQUESTS <=
    length (filter (within (Api.arrival r))
              (allowed_times (Api.caller r) (take i log))))%nat ->
   allowed = false /\
   response = Api.RATE_LIMITED /\
   Api.status response = 429 /\
   Api.body response = Api.ErrorBody "Rate limit exceeded").
Proof.
  intros Hmono log. split.
  - apply (serve_invariant route rs Hmono).
  - intros Hi Hfull. subst log.
    destruct (serve_lookup route rs i r allowed response Hi) as (Hr & Ha & Hresp).
    destruct (serve_invariant route (take i rs) (clock_monotone_take _ i Hmono))
      as [Hstate _].
    rewrite serve_take in Hfull.
    rewrite <- (Hstate (Api.caller r) (Api.arrival r)) in Hfull.
    + unfold Api.middleware in Ha, Hresp. rewrite fetch_eq in Ha, Hresp.
      rewrite decide_True in Ha, Hresp by done. simpl in Ha, Hresp.
      subst allowed response. done.
    + intros r' [j Hj]%list_elem_of_lookup Hc.
      apply lookup_take_Some in Hj as [Hj Hlt].
      apply (Hmono j i); [lia|done..].
Qed.

(** The 31st request of one caller within half a minute is rejected. *)
Lemma rate_limit_window_witness :
  let rs := (fun k => {| Api.cf_connecting_ip := Some "203.0.113.7";
                         Api.arrival := 1000 * Z.of_nat k |}) <$> seq 0 31 in
  let log := Api.serve (fun _ => Api.json (Api.CsvBody "") 200) ∅ rs in
  (length (filter (in_window 0) (allowed_times "203.0.113.7" log)) <= 30)%nat /\
  exists r, log !! 30%nat = Some (r, false, Api.RATE_LIMITED) /\
            Api.status Api.RATE_LIMITED = 429.
Proof.
  intros rs log.
  assert (Hmono : clock_monotone rs).
  { intros i j ri rj Hij Hi Hj _. subst rs.
    rewrite list_lookup_fmap in Hi, Hj.
    destruct (seq 0 31 !! i) as [ki|] eqn:Ei; [|discriminate Hi].
    destruct (seq 0 31 !! j) as [kj|] eqn:Ej; [|discriminate Hj].
    apply lookup_seq in Ei as [-> _]. apply lookup_seq in Ej as [-> _].
    injection Hi as <-. injection Hj as <-. simpl. lia. }
  pose (r := {| Api.cf_connecting_ip := Some "203.0.113.7"; Api.arrival := 30000 |}).
  destruct (rate_limit_window (fun _ => Api.json (Api.CsvBody "") 200) rs
              "203.0.113.7" 0 30 r false Api.RATE_LIMITED Hmono)
    as [Hwindow Hreject].
  split; [exact Hwindow|].
  exists r. split; [vm_compute; reflexivity|].
  apply Hreject.
  - vm_compute. reflexivity.
  - vm_compute. lia.
Defined.

(** The hypothesis on the clock is needed: when the clock of a limiter
    jumps ahead and back, the clean-up at the later time forgets requests
    that count again at the earlier time. Thirty requests at 100000, one at
    200000 and twenty-nine at 100001 are all allowed: 59 in the window
    that starts at 100000. *)
Example clock_going_back :
  let at_ t := {| Api.cf_connecting_ip := Some "203.0.113.7"; Api.arrival := t |} in
  let rs := replicate 30 (at_ 100000) ++ [at_ 200000] ++ replicate 29 (at_ 100001) in
  let log := Api.serve (fun _ => Api.json (Api.CsvBody "") 200) ∅ rs in
  ~ clock_monotone rs /\
  length (filter (in_window 100000) (allowed_times "203.0.113.7" log)) = 59%nat.
Proof.
  intros at_ rs log. split; [|vm_compute; reflexivity].
  intros H. specialize (H 30%nat 31%nat (at_ 200000) (at_ 100001)).
  simpl in H. specialize (H ltac:(lia) eq_refl eq_refl eq_refl). lia.
Qed.

(** ** The list of dates (C10) *)

Section ListDates.

Import Api.

Lemma substring_full s : String.substring 0 (String.length s) s = s.
Proof. induction s as [|c s IH]; [done|]. simpl. by rewrite IH. Qed.

Lemma substring_split n : forall s,
  (n <= String.length s)%nat ->
  s = String.substring 0 n s +:+ String.substring n (String.length s - n) s.
Proof.
  induction n as [|n IH]; intros s Hn.
  - rewrite Nat.sub_0_r, substring_full. by destruct s.
  - destruct s as [|c s]; simpl in Hn; [lia|].
    simpl. rewrite string_app_cons. f_equal. apply IH. lia.
Qed.

Lemma length_substring s : forall n m,
  (n + m <= String.length s)%nat -> String.length (String.substring n m s) = m.
Proof.
  induction s as [|c s IH]; intros [|n] [|m] H; simpl in *; try lia.
  - rewrite IH; lia.
  - apply IH. lia.
  - apply IH. lia.
Qed.

(** What a match means for the key. *)
Lemma match_date_sound key d :
  match_date key = Some d ->
  is_date d = true /\ exists before, key = before +:+ d +:+ ".csv".
Proof.
  unfold match_date.
  destruct (String.length key <? 14)%nat eqn:Hlen; [discriminate|].
  apply Nat.ltb_ge in Hlen.
  set (tail := String.substring (String.length key - 14) 14 key).
  destruct (is_date (String.substring 0 10 tail)) eqn:Hdate; [|discriminate].
  destruct (String.eqb (String.substring 10 4 tail) ".csv") eqn:Hcsv; [|discriminate].
  simpl. intros [= <-]. split; [done|].
  exists (String.substring 0 (String.length key - 14) key).
  apply String.eqb_eq in Hcsv. rewrite <- Hcsv.
  assert (Htail : String.length tail = 14%nat) by (apply length_substring; lia).
  rewrite (substring_split (String.length key - 14) key) at 1 by lia.
  f_equal.
  replace (String.length key - (String.length key - 14))%nat with 14%nat by lia.
  fold tail. rewrite (substring_split 10 tail) at 1 by lia.
  by rewrite Htail.
Qed.

(** The dates collected from a list of keys. *)
Lemma set_add_elem dateSet d x : x ∈ set_add dateSet d <-> x ∈ dateSet \/ x = d.
Proof.
  unfold set_add. destruct (decide (d ∈ dateSet)) as [Hd|Hd].
  - split; [by left|]. by intros [?| ->].
  - rewrite elem_of_app, list_elem_of_singleton. done.
Qed.

Lemma set_add_NoDup dateSet d : NoDup dateSet -> NoDup (set_add dateSet d).
Proof.
  unfold set_add. intros H. destruct (decide (d ∈ dateSet)); [done|].
  apply NoDup_app. split_and!; [done| |apply NoDup_singleton].
  intros x Hx ->%list_elem_of_singleton. done.
Qed.

Lemma collect_dates_from keys : forall acc,
  let result :=
    fold_left (fun dateSet key =>
                 match match_date key with
                 | Some d => set_add dateSet d
                 | None => dateSet
                 end) keys acc in
  (NoDup acc -> NoDup result) /\
  (forall d, d ∈ result <->
     d ∈ acc \/ exists key, key ∈ keys /\ match_date key = Some d).
Proof.
  induction keys as [|key keys IH]; intros acc; simpl.
  - split; [done|]. intros d. split; [by left|].
    intros [?|(k & Hk & _)]; [done|]. by apply elem_of_nil in Hk.
  - destruct (IH (match match_date key with
                  | Some d => set_add acc d
                  | None => acc
                  end)) as [Hnd Hel].
    split.
    + intros Hacc. apply Hnd. destruct (match_date key); [|done].
      by apply set_add_NoDup.
    + intros d. rewrite Hel. destruct (match_date key) as [d'|] eqn:E.
      * rewrite set_add_elem. split.
        -- intros [[?| ->]|(k & Hk & Hm)]; [by left|right..].
           ++ exists key. split; [by left|done].
           ++ exists k. split; [by right|done].
        -- intros [?|(k & [->|Hk]%elem_of_cons & Hm)].
           ++ by left; left.
           ++ left; right. congruence.
           ++ right. eauto.
      * split.
        -- intros [?|(k & Hk & Hm)]; [by left|]. right. exists k.
           split; [by right|done].
        -- intros [?|(k & [->|Hk]%elem_of_cons & Hm)]; [by left|congruence|].
           right. eauto.
Qed.

Lemma collect_dates_NoDup keys : NoDup (collect_dates keys).
Proof. apply (collect_dates_from keys []). constructor. Qed.

Lemma collect_dates_elem keys d :
  d ∈ collect_dates keys <-> exists key, key ∈ keys /\ match_date key = Some d.
Proof.
  unfold collect_dates. rewrite (proj2 (collect_dates_from keys [])).
  split; [|by right]. intros [Hd|?]; [|done]. by apply elem_of_nil in Hd.
Qed.

(** The listing: keys of the bucket under the prefix. *)
Lemma list_objects_elem bucket prefix key :
  key ∈ list_objects bucket prefix ->
  key ∈ bucket /\ String.prefix prefix key = true.
Proof.
  unfold list_objects. intros (i & Hi & _)%elem_of_take.
  apply list_elem_of_lookup_2 in Hi. apply list_elem_of_filter in Hi. tauto.
Qed.

(** Sorting. *)
Lemma StronglySorted_lookup {A} (R : relation A) l :
  StronglySorted R l ->
  forall i j x y, (i < j)%nat -> l !! i = Some x -> l !! j = Some y -> R x y.
Proof.
  induction 1 as [|a l Hl IH Ha]; intros i j x y Hij Hi Hj.
  - by rewrite lookup_nil in Hi.
  - destruct j as [|j]; [lia|]. simpl in Hj. destruct i as [|i]; simpl in Hi.
    + injection Hi as <-. rewrite Forall_forall in Ha.
      apply Ha. by eapply list_elem_of_lookup_2.
    + apply (IH i j); [lia|done..].
Qed.

Lemma reverse_descending (l : list string) :
  StronglySorted String.le l -> NoDup l -> descending (reverse l).
Proof.
  intros Hs Hnd i j a b Hij Hi Hj.
  pose proof (lookup_lt_Some _ _ _ Hi) as Hli.
  pose proof (lookup_lt_Some _ _ _ Hj) as Hlj.
  rewrite length_reverse in Hli, Hlj.
  rewrite reverse_lookup in Hi, Hj by done.
  split.
  - apply (StronglySorted_lookup _ _ Hs (length l - S j) (length l - S i));
      [lia|done..].
  - intros <-.
    pose proof (NoDup_lookup _ _ _ _ Hnd Hi Hj). lia.
Qed.

Lemma sorted_dates_descending keys : descending (sorted_dates keys).
Proof.
  unfold sorted_dates. apply reverse_descending.
  - apply StronglySorted_merge_sort; apply _.
  - rewrite merge_sort_Permutation. apply collect_dates_NoDup.
Qed.

Lemma sorted_dates_elem keys d :
  d ∈ sorted_dates keys <-> exists key, key ∈ keys /\ match_date key = Some d.
Proof.
  unfold sorted_dates.
  rewrite elem_of_reverse, merge_sort_Permutation. apply collect_dates_elem.
Qed.

(** Slices. *)
Lemma slice_lookup {A} (l : list A) start end_ i x :
  slice l start end_ !! i = Some x ->
  l !! (Z.to_nat (relative_index (Z.of_nat (length l)) start) + i)%nat = Some x.
Proof.
  unfold slice. intros [Hi _]%lookup_take_Some. by rewrite lookup_drop in Hi.
Qed.

Lemma slice_elem {A} (l : list A) start end_ x :
  x ∈ slice l start end_ -> x ∈ l.
Proof.
  intros [i Hi]%list_elem_of_lookup. apply slice_lookup in Hi.
  by eapply list_elem_of_lookup_2.
Qed.

Lemma slice_descending l start end_ :
  descending l -> descending (slice l start end_).
Proof.
  intros H i j a b Hij Hi%slice_lookup Hj%slice_lookup.
  eapply H; [|done..]. lia.
Qed.

(** A page of a positive limit has at most that many entries. *)
Lemma length_slice_page {A} (l : list A) start limit :
  0 < limit -> Z.of_nat (length (slice l start (start + limit))) <= limit.
Proof.
  intros Hlimit. unfold slice. rewrite length_take.
  unfold relative_index.
  destruct (start <? 0) eqn:E1, (start + limit <? 0) eqn:E2;
    rewrite ?Z.ltb_lt, ?Z.ltb_ge in E1, E2; lia.
Qed.

(** The ceiling of a quotient by a positive divisor. *)
Lemma ceil_div_spec a b :
  0 < b -> (ceil_div a b - 1) * b < a <= ceil_div a b * b.
Proof.
  intros Hb. unfold ceil_div.
  pose proof (Z.mul_div_le (- a) b Hb).
  pose proof (Z.mul_succ_div_gt (- a) b Hb).
  nia.
Qed.

End ListDates.

(** C10, as the code has it. For every content of the bucket and every
    integer page and positive integer limit (1 and 10 when the query has
    none), the handler answers 200 with a page of dates such that every
    date has the form [YYYY-MM-DD] and is taken from a key of the bucket
    under [pre-open-market/] that ends in the date and [.csv]; the dates of
    the page are in strictly decreasing order, so newest first and without
    duplicates; the page has at most [limit] dates; [totalCount] is the
    number of different dates; and [totalPages] is the ceiling of
    [totalCount / limit]. *)
Theorem list_dates_page (keys : list string)
    (query_page query_limit : option Z) :
  0 < Api.or_default query_limit 10 ->
  exists r,
    Api.list_dates (Some keys) query_page query_limit =
      Api.json (Api.DatesBody r) 200 /\
    Api.page r = Api.or_default query_page 1 /\
    Api.limit r = Api.or_default query_limit 10 /\
    (forall d, d ∈ Api.dates r -> Api.is_date d = true /\ date_of_key keys d) /\
    descending (Api.dates r) /\
    NoDup (Api.dates r) /\
    Z.of_nat (length (Api.dates r)) <= Api.limit r /\
    Api.totalCount r =
      Z.of_nat (length (Api.collect_dates (Api.list_objects keys Api.PREFIX))) /\
    (Api.totalPages r - 1) * Api.limit r < Api.totalCount r
      <= Api.totalPages r * Api.limit r.
Proof.
  intros Hlimit. eexists. split; [reflexivity|]. simpl.
  assert (Hdesc : descending
            (Api.slice (Api.sorted_dates (Api.list_objects keys Api.PREFIX))
               ((Api.or_default query_page 1 - 1) * Api.or_default query_limit 10)
               ((Api.or_default query_page 1 - 1) * Api.or_default query_limit 10
                + Api.or_default query_limit 10))).
  { apply slice_descending, sorted_dates_descending. }
  split_and!; try done.
  - intros d Hd%slice_elem%sorted_dates_elem.
    destruct Hd as (key & [Hkey Hprefix]%list_objects_elem & Hmatch).
    apply match_date_sound in Hmatch as [Hdate [before ->]].
    split; [done|]. by exists (before +:+ d +:+ ".csv"), before.
  - apply NoDup_alt. intros i j d Hi Hj.
    destruct (Nat.lt_total i j) as [Hlt|[->|Hlt]]; [|done|].
    + by destruct (Hdesc i j d d Hlt Hi Hj).
    + by destruct (Hdesc j i d d Hlt Hj Hi).
  - by apply length_slice_page.
  - unfold Api.sorted_dates.
    by rewrite length_reverse, merge_sort_Permutation.
  - by apply ceil_div_spec.
  - by apply ceil_div_spec.
Qed.

(** Three days of data and a stray key, two dates per page: the second
    page. *)
Lemma list_dates_page_witness :
  let keys := ["pre-open-market/2024-09-24.csv"; "pre-open-market/2024-09-25.csv";
               "nse-preopen/2024-09-26/preopen_20240926.csv";
               "pre-open-market/2024-09-23.csv"; "pre-open-market/2024-09-24.csv"] in
  exists r,
    Api.list_dates (Some keys) (Some 2) (Some 2) =
      Api.json (Api.DatesBody r) 200 /\
    Api.dates r = ["2024-09-23"] /\
    Api.totalCount r = 3 /\ Api.totalPages r = 2 /\
    descending (Api.dates r) /\
    Z.of_nat (length (Api.dates r)) <= 2.
Proof.
  intros keys.
  destruct (list_dates_page keys (Some 2) (Some 2))
    as (r & Hr & _ & Hl & _ & Hd & _ & Hlen & _); [simpl; lia|].
  exists r. rewrite Hl in Hlen. injection Hr as <-.
  split_and!; [reflexivity..|exact Hd|exact Hlen].
Defined.

(** C10 as stated fails for a negative limit: with [limit=-1] the slice
    drops the last date only, and the page of two dates is longer than
    the limit. *)
Lemma list_dates_limit_counterexample :
  let keys := ["pre-open-market/2024-09-23.csv"; "pre-open-market/2024-09-24.csv";
               "pre-open-market/2024-09-25.csv"] in
  Api.list_dates (Some keys) (Some 1) (Some (-1)) =
    Api.json (Api.DatesBody {| Api.dates := ["2024-09-25"; "2024-09-24"];
                               Api.totalCount := 3; Api.page := 1;
                               Api.limit := -1; Api.totalPages := -3 |}) 200 /\
  ~ page_within_limit keys (Some 1) (Some (-1)).
Proof.
  intros keys. split; [reflexivity|].
  intros H. specialize (H _ eq_refl). simpl in H. lia.
Qed.

(** * Further properties of the code *)

(** ** The limiter and the middleware *)

Section LimiterShape.

Import Api.

Variable route : Request -> Response.

#[local] Arguments middleware : simpl never.

Implicit Types (limiters : gmap string (list Z)) (rs : list Request).

Lemma requests_of_snoc ip rs r :
  requests_of ip (rs ++ [r]) =
  requests_of ip rs ++ (if decide (caller r = ip) then [r] else []).
Proof.
  unfold requests_of. by rewrite filter_app.
Qed.

(** What a limiter holds after any sequence of requests: at most the
    ceiling, at most one timestamp per request of its caller, and only
    timestamps of requests of its caller. *)
Lemma limiter_shape rs ip :
  let held := limiter_state (limiters_after route ∅ rs) ip in
  (length held <= RateLimiter.MAX_REQUESTS)%nat /\
  (length held <= length (requests_of ip rs))%nat /\
  (forall t, t ∈ held -> exists r, r ∈ rs /\ caller r = ip /\ arrival r = t).
Proof.
  induction rs as [|r rs IH] using rev_ind; simpl.
  - unfold limiter_state. simpl. rewrite lookup_empty. simpl.
    split_and!; [lia|lia|]. intros t Ht. by apply elem_of_nil in Ht.
  - destruct IH as (Hmax & Hlen & Hin).
    rewrite limiters_after_snoc, requests_of_snoc, length_app.
    unfold middleware. rewrite fetch_eq.
    set (L := limiters_after route ∅ rs) in *.
    set (kept := filter (within (arrival r)) (limiter_state L (caller r))).
    assert (Hkept : forall t, t ∈ kept -> t ∈ limiter_state L (caller r)).
    { intros t Ht. apply list_elem_of_filter in Ht. tauto. }
    assert (Hkl : (length kept <= length (limiter_state L (caller r)))%nat)
      by apply length_filter.
    destruct (decide (RateLimiter.MAX_REQUESTS <= length kept)%nat) as [Hfull|Hroom];
      simpl; rewrite limiter_state_insert;
      destruct (decide (caller r = ip)) as [<-|Hne]; simpl.
    + split_and!; [lia|lia|].
      intros t Ht%Hkept%Hin. destruct Ht as (r' & ? & ? & ?).
      exists r'. split_and!; [apply elem_of_app; by left|done..].
    + split_and!; [lia|lia|].
      intros t Ht%Hin. destruct Ht as (r' & ? & ? & ?).
      exists r'. split_and!; [apply elem_of_app; by left|done..].
    + rewrite length_app. simpl. split_and!; [lia|lia|].
      intros t [Ht%Hkept%Hin| ->%list_elem_of_singleton]%elem_of_app.
      * destruct Ht as (r' & ? & ? & ?).
        exists r'. split_and!; [apply elem_of_app; by left|done..].
      * exists r. split_and!; [apply elem_of_app; right; by left|done..].
    + split_and!; [lia|lia|].
      intros t Ht%Hin. destruct Ht as (r' & ? & ? & ?).
      exists r'. split_and!; [apply elem_of_app; by left|done..].
Qed.

(** The answer to a request, from what the limiter of its caller holds
    when it arrives. *)
Lemma serve_answer rs i r allowed response :
  serve route ∅ rs !! i = Some (r, allowed, response) ->
  let held := limiter_state (limiters_after route ∅ (take i rs)) (caller r) in
  let kept := filter (within (arrival r)) held in
  if decide (RateLimiter.MAX_REQUESTS <= length kept)%nat
  then allowed = false /\ response = RATE_LIMITED
  else allowed = true /\ response = route r.
Proof.
  intros Hi held kept.
  destruct (serve_lookup route rs i r allowed response Hi) as (_ & <- & <-).
  unfold middleware. rewrite fetch_eq. fold held. fold kept.
  by destruct (decide (RateLimiter.MAX_REQUESTS <= length kept)%nat).
Qed.

(** Other callers do not matter: from two namespaces that agree on the
    limiter of [ip], the whole sequence and the requests of [ip] alone get
    the same answers for [ip]. *)
Lemma serve_isolated ip rs : forall limiters limiters',
  limiter_state limiters ip = limiter_state limiters' ip ->
  log_of ip (serve route limiters rs) = serve route limiters' (requests_of ip rs).
Proof.
  induction rs as [|r rs IH]; intros L L' Hagree; [done|].
  unfold log_of, requests_of in *. simpl.
  destruct (middleware L r (route r)) as [[L1 a] resp] eqn:E.
  unfold middleware in E. rewrite fetch_eq in E.
  rewrite filter_cons. simpl. rewrite (filter_cons _ r).
  destruct (decide (caller r = ip)) as [Hc|Hc].
  - simpl. unfold middleware. rewrite fetch_eq.
    rewrite Hc in E |- *. rewrite <- Hagree.
    destruct (decide (RateLimiter.MAX_REQUESTS <=
                length (filter (within (arrival r)) (limiter_state L ip)))%nat);
      simpl in E |- *; injection E as <- <- <-; f_equal; apply IH;
      by rewrite !limiter_state_insert, !decide_True.
  - apply IH. rewrite <- Hagree.
    destruct (decide (RateLimiter.MAX_REQUESTS <=
                length (filter (within (arrival r))
                          (limiter_state L (caller r))))%nat);
      simpl in E; injection E as <- _ _;
      by rewrite limiter_state_insert, decide_False.
Qed.

End LimiterShape.

(** X1. Whatever the requests and their timestamps, the limiter of a
    caller never holds more than 30 timestamps, and it holds only
    timestamps of requests of that caller. *)
Theorem limiter_state_bounded (route : Api.Request -> Api.Response)
    (rs : list Api.Request) (ip : string) (t : Z) :
  let held := Api.limiter_state (limiters_after route ∅ rs) ip in
  (length held <= RateLimiter.MAX_REQUESTS)%nat /\
  (t ∈ held -> exists r, r ∈ rs /\ Api.caller r = ip /\ Api.arrival r = t).
Proof.
  intros held. destruct (limiter_shape route rs ip) as (Hmax & _ & Hin).
  split; [exact Hmax | apply Hin].
Qed.

(** X2. A caller is never rejected before its 31st request: a request
    that fewer than 30 requests of the same caller precede is allowed and
    gets the answer of the route, whatever the clock does. *)
Theorem first_requests_allowed (route : Api.Request -> Api.Response)
    (rs : list Api.Request) (i : nat) (r : Api.Request) (allowed : bool)
    (response : Api.Response) :
  Api.serve route ∅ rs !! i = Some (r, allowed, response) ->
  (length (requests_of (Api.caller r) (take i rs)) < RateLimiter.MAX_REQUESTS)%nat ->
  allowed = true /\ response = route r.
Proof.
  intros Hi Hfew. pose proof (serve_answer route rs i r allowed response Hi) as H.
  simpl in H.
  destruct (limiter_shape route (take i rs) (Api.caller r)) as (_ & Hlen & _).
  simpl in Hlen.
  pose proof (length_filter (within (Api.arrival r))
    (Api.limiter_state (limiters_after route ∅ (take i rs)) (Api.caller r))).
  rewrite decide_False in H by lia. exact H.
Qed.

(** X3. A request that comes at least 60000 ms after every earlier
    request of its caller is allowed, whatever happened before (also after
    a burst that was rejected). *)
Theorem quiet_window_allows (route : Api.Request -> Api.Response)
    (rs : list Api.Request) (i : nat) (r : Api.Request) (allowed : bool)
    (response : Api.Response) :
  Api.serve route ∅ rs !! i = Some (r, allowed, response) ->
  (forall r', r' ∈ take i rs -> Api.caller r' = Api.caller r ->
     RateLimiter.WINDOW_MS <= Api.arrival r - Api.arrival r') ->
  allowed = true /\ response = route r.
Proof.
  intros Hi Hquiet.
  pose proof (serve_answer route rs i r allowed response Hi) as H. simpl in H.
  destruct (limiter_shape route (take i rs) (Api.caller r)) as (_ & _ & Hin).
  simpl in Hin.
  destruct (filter (within (Api.arrival r))
              (Api.limiter_state (limiters_after route ∅ (take i rs)) (Api.caller r)))
    as [|t kept] eqn:E.
  - rewrite decide_False in H by (unfold RateLimiter.MAX_REQUESTS; simpl; lia).
    exact H.
  - exfalso.
    assert (Ht : t ∈ filter (within (Api.arrival r))
              (Api.limiter_state (limiters_after route ∅ (take i rs)) (Api.caller r)))
      by (rewrite E; by left).
    apply list_elem_of_filter in Ht as [Hw Ht].
    destruct (Hin t Ht) as (r' & Hr' & Hc & <-).
    specialize (Hquiet r' Hr' Hc). unfold within in Hw. lia.
Qed.

(** X4. Callers are limited independently: the answers a caller gets in a
    sequence of requests of many callers are the answers it gets when its
    own requests are served alone. *)
Theorem callers_isolated (route : Api.Request -> Api.Response)
    (rs : list Api.Request) (ip : string) :
  log_of ip (Api.serve route ∅ rs) = Api.serve route ∅ (requests_of ip rs).
Proof. by apply serve_isolated. Qed.

(** X5. With a clock that does not go back, a request is allowed exactly
    when fewer than 30 allowed requests of its caller are less than 60000
    ms old; it then gets the answer of the route, and otherwise the 429
    answer. *)
Theorem allowed_iff_room (route : Api.Request -> Api.Response)
    (rs : list Api.Request) (i : nat) (r : Api.Request) (allowed : bool)
    (response : Api.Response) :
  clock_monotone rs ->
  Api.serve route ∅ rs !! i = Some (r, allowed, response) ->
  let recent :=
    filter (within (Api.arrival r))
      (allowed_times (Api.caller r) (take i (Api.serve route ∅ rs))) in
  (allowed = true <-> (length recent < RateLimiter.MAX_REQUESTS)%nat) /\
  response = (if allowed then route r else Api.RATE_LIMITED).
Proof.
  intros Hmono Hi recent.
  pose proof (serve_answer route rs i r allowed response Hi) as H. simpl in H.
  destruct (serve_lookup route rs i r allowed response Hi) as (Hr & _ & _).
  destruct (serve_invariant route (take i rs) (clock_monotone_take _ i Hmono))
    as [Hstate _].
  subst recent. rewrite serve_take.
  rewrite <- (Hstate (Api.caller r) (Api.arrival r)).
  - destruct (decide _) as [Hfull|Hroom] in H; destruct H as [-> ->];
      (split; [split; [try done; lia | try done; lia] | done]).
  - intros r' [j Hj]%list_elem_of_lookup Hc.
    apply lookup_take_Some in Hj as [Hj Hlt].
    apply (Hmono j i); [lia|done..].
Qed.

(** Two callers, the clock of one going back: its second request is
    allowed. *)
Lemma first_requests_allowed_witness :
  let a t := {| Api.cf_connecting_ip := Some "203.0.113.7"; Api.arrival := t |} in
  let b t := {| Api.cf_connecting_ip := None; Api.arrival := t |} in
  let route := fun _ : Api.Request => Api.json (Api.CsvBody "") 200 in
  Api.serve route ∅ [a 5; b 3; a 1] !! 2%nat = Some (a 1, true, route (a 1)).
Proof.
  intros a b route.
  destruct (first_requests_allowed route [a 5; b 3; a 1] 2 (a 1) true (route (a 1)))
    as [_ _]; [reflexivity | vm_compute; lia | reflexivity].
Defined.

(** Thirty-one requests at once, the last one rejected; the request one
    window later is allowed. *)
Lemma quiet_window_allows_witness :
  let at_ t := {| Api.cf_connecting_ip := Some "203.0.113.7"; Api.arrival := t |} in
  let route := fun _ : Api.Request => Api.json (Api.CsvBody "") 200 in
  let log := Api.serve route ∅ (replicate 31 (at_ 0) ++ [at_ 60000]) in
  log !! 30%nat = Some (at_ 0, false, Api.RATE_LIMITED) /\
  log !! 31%nat = Some (at_ 60000, true, route (at_ 60000)).
Proof.
  intros at_ route log. split; [vm_compute; reflexivity|].
  destruct (quiet_window_allows route (replicate 31 (at_ 0) ++ [at_ 60000]) 31
              (at_ 60000) true (route (at_ 60000))) as [_ _].
  - vm_compute. reflexivity.
  - intros r' Hr' _. rewrite take_app_length' in Hr' by done.
    apply elem_of_replicate in Hr' as [-> _]. vm_compute. discriminate.
  - vm_compute. reflexivity.
Defined.

(** Thirty-one requests within half a minute: the last one finds no
    room. *)
Lemma allowed_iff_room_witness :
  let rs := (fun k => {| Api.cf_connecting_ip := Some "203.0.113.7";
                         Api.arrival := 1000 * Z.of_nat k |}) <$> seq 0 31 in
  let route := fun _ : Api.Request => Api.json (Api.CsvBody "") 200 in
  let r := {| Api.cf_connecting_ip := Some "203.0.113.7"; Api.arrival := 30000 |} in
  let recent :=
    filter (within 30000)
      (allowed_times "203.0.113.7" (take 30 (Api.serve route ∅ rs))) in
  ~ (length recent < RateLimiter.MAX_REQUESTS)%nat /\
  Api.serve route ∅ rs !! 30%nat = Some (r, false, Api.RATE_LIMITED).
Proof.
  intros rs route r recent.
  assert (Hmono : clock_monotone rs).
  { intros i j ri rj Hij Hi Hj _. subst rs.
    rewrite list_lookup_fmap in Hi, Hj.
    destruct (seq 0 31 !! i) as [ki|] eqn:Ei; [|discriminate Hi].
    destruct (seq 0 31 !! j) as [kj|] eqn:Ej; [|discriminate Hj].
    apply lookup_seq in Ei as [-> _]. apply lookup_seq in Ej as [-> _].
    injection Hi as <-. injection Hj as <-. simpl. lia. }
  assert (Hi : Api.serve route ∅ rs !! 30%nat = Some (r, false, Api.RATE_LIMITED))
    by (vm_compute; reflexivity).
  destruct (allowed_iff_room route rs 30 r false Api.RATE_LIMITED Hmono Hi)
    as [[_ Hroom] _].
  split; [|exact Hi].
  intros Hlt. apply Hroom in Hlt. discriminate Hlt.
Defined.

(** ** Rejected requests leave no mark *)

Section Rejections.

Import Api.

Variable route : Request -> Response.

#[local] Arguments middleware : simpl never.

Implicit Types (rs : list Request) (log : list (Request * bool * Response)).

Lemma allowed_log_snoc log e :
  allowed_log (log ++ [e]) = allowed_log log ++ (if e.1.2 then [e] else []).
Proof.
  unfold allowed_log. rewrite filter_app. f_equal.
  destruct e as [[r []] resp]; [by rewrite filter_singleton_True|].
  by rewrite filter_singleton_False.
Qed.

Lemma allowed_times_allowed_log ip log :
  allowed_times ip (allowed_log log) = allowed_times ip log.
Proof.
  induction log as [|e log IH] using rev_ind; [done|].
  rewrite allowed_log_snoc, !allowed_times_snoc, <- IH.
  destruct e as [[r []] resp]; simpl.
  - rewrite allowed_times_snoc. done.
  - rewrite app_nil_r. rewrite decide_False by (intros [_ ?]; done).
    by rewrite app_nil_r.
Qed.

Lemma allowed_requests_elem rs limiters r :
  r ∈ allowed_requests (serve route limiters rs) -> r ∈ rs.
Proof.
  unfold allowed_requests, allowed_log.
  intros (e & -> & He)%list_elem_of_fmap.
  apply list_elem_of_filter in He as [_ He].
  rewrite <- (serve_requests route rs limiters).
  apply list_elem_of_fmap. by exists e.
Qed.

Lemma clock_monotone_snoc_2 rs r :
  clock_monotone rs ->
  (forall r', r' ∈ rs -> caller r' = caller r -> arrival r' <= arrival r) ->
  clock_monotone (rs ++ [r]).
Proof.
  intros Hmono Hlast i j ri rj Hij Hi Hj Hc.
  destruct (decide (j < length rs)%nat) as [Hlt|Hge].
  - rewrite lookup_app_l in Hi by lia. rewrite lookup_app_l in Hj by lia.
    by apply (Hmono i j).
  - rewrite lookup_app_r in Hj by lia.
    destruct (j - length rs)%nat eqn:E; simpl in Hj; [|by rewrite lookup_nil in Hj].
    injection Hj as <-.
    destruct (decide (i < length rs)%nat) as [Hlt|Hge'].
    + rewrite lookup_app_l in Hi by lia.
      apply Hlast; [|done]. apply list_elem_of_lookup. by exists i.
    + rewrite lookup_app_r in Hi by lia.
      destruct (i - length rs)%nat; simpl in Hi; [|by rewrite lookup_nil in Hi].
      injection Hi as <-. lia.
Qed.

Lemma rejections_invariant rs :
  clock_monotone rs ->
  clock_monotone (allowed_requests (serve route ∅ rs)) /\
  serve route ∅ (allowed_requests (serve route ∅ rs)) =
    allowed_log (serve route ∅ rs).
Proof.
  induction rs as [|r rs IH] using rev_ind; intros Hmono.
  - split; [|done]. intros i j ri rj _ Hi.
    change (@nil Request !! i = Some ri) in Hi. by rewrite lookup_nil in Hi.
  - apply clock_monotone_snoc in Hmono as [Hmono Hlast].
    destruct (IH Hmono) as [Hkept Hserve]. clear IH.
    rewrite serve_snoc. unfold allowed_requests in *.
    rewrite allowed_log_snoc, fmap_app. cbn [fst snd].
    set (log := serve route ∅ rs) in *.
    set (kept := (fun e : Request * bool * Response => e.1.1) <$> allowed_log log) in *.
    assert (Hin : forall r', r' ∈ kept -> caller r' = caller r ->
                    arrival r' <= arrival r).
    { intros r' Hr'. apply Hlast. by apply (allowed_requests_elem rs ∅). }
    assert (Hsame :
      filter (within (arrival r))
        (limiter_state (limiters_after route ∅ kept) (caller r)) =
      filter (within (arrival r))
        (limiter_state (limiters_after route ∅ rs) (caller r))).
    { destruct (serve_invariant route kept Hkept) as [-> _]; [|done].
      destruct (serve_invariant route rs Hmono) as [-> _]; [|done].
      fold log. by rewrite Hserve, allowed_times_allowed_log. }
    unfold middleware. rewrite !fetch_eq.
    destruct (decide (RateLimiter.MAX_REQUESTS <=
                length (filter (within (arrival r))
                  (limiter_state (limiters_after route ∅ rs) (caller r))))%nat)
      as [Hfull|Hroom]; cbn [fst snd fmap list_fmap].
    + rewrite !app_nil_r. done.
    + split; [by apply clock_monotone_snoc_2|].
      rewrite serve_snoc, Hserve. f_equal.
      unfold middleware. rewrite !fetch_eq, Hsame.
      by rewrite !decide_False by done.
Qed.

End Rejections.

(** X6. Rejected requests leave no mark: with a clock that does not go
    back, the requests that were allowed get the same answers when they
    are served alone, without the rejected ones. A caller that keeps
    asking while it is limited is not limited for longer. *)
Theorem rejections_change_nothing (route : Api.Request -> Api.Response)
    (rs : list Api.Request) :
  clock_monotone rs ->
  Api.serve route ∅ (allowed_requests (Api.serve route ∅ rs)) =
    allowed_log (Api.serve route ∅ rs).
Proof. intros Hmono. by apply rejections_invariant. Qed.

(** Thirty-one requests at once and one a window later: thirty-one of
    them are allowed, and served alone they are allowed again. *)
Lemma rejections_change_nothing_witness :
  let at_ t := {| Api.cf_connecting_ip := Some "203.0.113.7"; Api.arrival := t |} in
  let route := fun _ : Api.Request => Api.json (Api.CsvBody "") 200 in
  let rs := replicate 31 (at_ 0) ++ [at_ 60000] in
  Api.serve route ∅ (replicate 30 (at_ 0) ++ [at_ 60000]) =
    allowed_log (Api.serve route ∅ rs).
Proof.
  intros at_ route rs.
  assert (Hmono : clock_monotone rs).
  { intros i j ri rj Hij Hi Hj _. subst rs.
    destruct (decide (j < 31)%nat) as [Hlt|Hge].
    - rewrite lookup_app_l in Hi by (rewrite length_replicate; lia).
      rewrite lookup_app_l in Hj by (rewrite length_replicate; lia).
      apply lookup_replicate in Hi as [-> _].
      apply lookup_replicate in Hj as [-> _]. done.
    - rewrite lookup_app_r in Hj by (rewrite length_replicate; lia).
      rewrite length_replicate in Hj.
      destruct (j - 31)%nat; simpl in Hj; [|by rewrite lookup_nil in Hj].
      injection Hj as <-.
      apply list_elem_of_lookup_2 in Hi.
      apply elem_of_app in Hi as [[-> _]%elem_of_replicate| ->%list_elem_of_singleton];
        simpl; lia. }
  exact (rejections_change_nothing route rs Hmono).
Defined.

(** ** The routes of the API and the bucket *)

Section RoutesAndBucket.

Import Api Routes.

Lemma object_keys_elem objects key :
  key ∈ object_keys objects <-> is_Some (objects !! key).
Proof.
  unfold object_keys. rewrite merge_sort_Permutation, list_elem_of_fmap. split.
  - intros ([k v] & -> & Hkv). apply elem_of_map_to_list in Hkv. by exists v.
  - intros [v Hv]. exists (key, v). split; [done|]. by apply elem_of_map_to_list.
Qed.

Lemma list_objects_complete keys prefix key :
  (length (filter (fun k => String.prefix prefix k = true) keys) <= 1000)%nat ->
  key ∈ keys -> String.prefix prefix key = true ->
  key ∈ list_objects keys prefix.
Proof.
  intros Hlen Hkey Hprefix. unfold list_objects.
  rewrite take_ge by done. by apply list_elem_of_filter.
Qed.

Lemma prefix_download_key date : String.prefix PREFIX (download_key date) = true.
Proof. unfold download_key, PREFIX. simpl. by destruct date. Qed.

(** The list route reads the date of the key of the download route. *)
Lemma match_date_download_key date :
  is_date date = true -> match_date (download_key date) = Some date.
Proof.
  intros H. unfold is_date in H.
  repeat (match type of H with
          | context [match ?x with _ => _ end] => is_var x; destruct x
          end; try discriminate H).
  unfold match_date, download_key.
  cbn -[is_digit] in H. repeat (apply andb_true_iff in H as [H ?]).
  cbv -[is_digit].
  repeat match goal with
         | E : is_digit _ = true |- _ => rewrite E; clear E
         end.
  reflexivity.
Qed.

End RoutesAndBucket.

Section Pagination.

Import Api Routes.

Lemma take_min_length {A} (l : list A) (n : nat) :
  take n l = take (n `min` length l) l.
Proof.
  destruct (decide (n <= length l)%nat).
  - by rewrite Nat.min_l.
  - rewrite Nat.min_r by lia. by rewrite !take_ge by lia.
Qed.

(** A page of a positive limit, counted from zero, is a window of the
    list. *)
Lemma slice_page {A} (l : list A) (k m : nat) :
  (0 < m)%nat ->
  slice l (Z.of_nat k * Z.of_nat m) (Z.of_nat k * Z.of_nat m + Z.of_nat m) =
  take m (drop (k * m) l).
Proof.
  intros Hm. unfold slice, relative_index.
  rewrite <- Nat2Z.inj_mul, <- Nat2Z.inj_add.
  replace (Z.of_nat (k * m) <? 0) with false by (symmetry; apply Z.ltb_ge; lia).
  replace (Z.of_nat (k * m + m) <? 0) with false by (symmetry; apply Z.ltb_ge; lia).
  generalize (k * m)%nat. intros n.
  destruct (decide (n <= length l)%nat) as [Hin|Hout].
  - replace (Z.to_nat (Z.of_nat n `min` Z.of_nat (length l))) with n by lia.
    rewrite (take_min_length _ m), (take_min_length _ (Z.to_nat _)).
    f_equal. rewrite length_drop. lia.
  - rewrite !drop_ge by lia. by rewrite !take_nil.
Qed.

(** The windows of a list laid end to end. *)
Lemma windows_concat {A} (l : list A) (m n : nat) :
  concat ((fun k => take m (drop (k * m) l)) <$> seq 0 n) = take (n * m) l.
Proof.
  induction n as [|n IH]; [by rewrite take_0|].
  rewrite seq_S, fmap_app, concat_app, IH. simpl. rewrite app_nil_r.
  rewrite take_take_drop. f_equal. lia.
Qed.

End Pagination.

Section PagesOfDates.

Import Api Routes.

(** The dates of a page of a positive limit. *)
Lemma page_dates_window keys limit p :
  0 < limit ->
  page_dates keys limit (S p) =
  take (Z.to_nat limit)
    (drop (p * Z.to_nat limit) (sorted_dates (list_objects keys PREFIX))).
Proof.
  intros Hlimit. unfold page_dates, response_dates, list_dates, or_default.
  replace (Z.of_nat (S p) =? 0) with false by (symmetry; apply Z.eqb_neq; lia).
  replace (limit =? 0) with false by (symmetry; apply Z.eqb_neq; lia).
  simpl body. cbn [dates].
  replace (Z.of_nat (S p) - 1) with (Z.of_nat p) by lia.
  rewrite <- (Z2Nat.id limit) at 1 2 3 by lia.
  apply slice_page. lia.
Qed.

Lemma filter_none {A} (P : A -> Prop) `{!forall x, Decision (P x)} (l : list A) :
  (forall x, x ∈ l -> ~ P x) -> filter P l = [].
Proof.
  induction l as [|a l IH]; intros Hno; [done|].
  rewrite filter_cons_False by (apply Hno; by left).
  apply IH. intros x Hx. apply Hno. by right.
Qed.

(** No key of the scraper is under the prefix of the API. *)
Lemma storage_key_not_listed now fileName :
  String.prefix PREFIX (storage_key now fileName) = false.
Proof. by rewrite storage_key_eq. Qed.

Lemma storage_key_not_download_key now fileName date :
  download_key date <> storage_key now fileName.
Proof. rewrite storage_key_eq. discriminate. Qed.

End PagesOfDates.

Section ListingFits.

Import Api Routes.

(** When the keys under the prefix fit in one answer, the listing is all
    of them. *)
Lemma list_objects_fits keys :
  listing_fits keys ->
  list_objects keys PREFIX =
    filter (fun key => String.prefix PREFIX key = true) keys.
Proof. intros Hfits. unfold list_objects. by apply take_ge. Qed.

End ListingFits.

(** X7. The pages of the list route cover the bucket when the keys under
    the prefix are at most 1000, what one listing of the store returns
    (the handler lists once): for a positive limit, the pages 1 to
    [totalPages] of an answer, laid end to end, have a date exactly when a
    key of the bucket under the prefix ends in that date and [.csv]; they
    are newest first, have each date once, and are [totalCount] dates. *)
Theorem all_pages_cover (keys : list string) (limit : Z)
    (query_page : option Z) (r : Api.DatesPage) :
  listing_fits keys ->
  0 < limit ->
  Api.list_dates (Some keys) query_page (Some limit) =
    Api.json (Api.DatesBody r) 200 ->
  let all := concat (Routes.page_dates keys limit <$> seq 1 (Z.to_nat (Api.totalPages r))) in
  (forall date,
     date ∈ all <->
     exists key, key ∈ keys /\ String.prefix Api.PREFIX key = true /\
                 Api.match_date key = Some date) /\
  (forall date, Api.is_date date = true -> Routes.download_key date ∈ keys ->
     date ∈ all) /\
  NoDup all /\ descending all /\
  Z.of_nat (length all) = Api.totalCount r.
Proof.
  intros Hfits Hlimit Hr all.
  assert (Hl : Api.or_default (Some limit) 10 = limit).
  { unfold Api.or_default.
    by replace (limit =? 0) with false by (symmetry; apply Z.eqb_neq; lia). }
  unfold Api.list_dates in Hr. rewrite Hl in Hr. injection Hr as <-.
  cbn [Api.totalPages Api.totalCount].
  set (dates := Api.sorted_dates (Api.list_objects keys Api.PREFIX)) in *.
  assert (Hall : all = dates).
  { subst all. cbn [Api.totalPages].
    rewrite <- fmap_S_seq, <- list_fmap_compose.
    erewrite list_fmap_ext; [|intros i p _; apply (page_dates_window keys limit p Hlimit)].
    fold dates. rewrite (windows_concat dates). apply take_ge.
    pose proof (ceil_div_spec (Z.of_nat (length dates)) limit Hlimit) as Hceil.
    set (n := Api.ceil_div (Z.of_nat (length dates)) limit) in *.
    assert (0 <= n) by nia.
    rewrite <- Z2Nat.inj_mul by lia. lia. }
  assert (Hin : forall date,
            date ∈ dates <->
            exists key, key ∈ keys /\ String.prefix Api.PREFIX key = true /\
                        Api.match_date key = Some date).
  { intros date. subst dates.
    rewrite sorted_dates_elem, (list_objects_fits keys Hfits).
    split.
    - intros (key & Hkey%list_elem_of_filter & Hdate). exists key. tauto.
    - intros (key & Hkey & Hprefix & Hdate). exists key.
      split; [by apply list_elem_of_filter|done]. }
  rewrite Hall. split_and!; [done| |  |apply sorted_dates_descending|done].
  - intros date Hdate Hkey. apply Hin. exists (Routes.download_key date).
    split_and!; [done|apply prefix_download_key|by apply match_date_download_key].
  - apply NoDup_alt. intros i j d Hi Hj.
    pose proof (sorted_dates_descending (Api.list_objects keys Api.PREFIX)) as Hdesc.
    fold dates in Hdesc.
    destruct (Nat.lt_total i j) as [Hlt|[->|Hlt]]; [|done|].
    + by destruct (Hdesc i j d d Hlt Hi Hj).
    + by destruct (Hdesc j i d d Hlt Hj Hi).
Qed.

(** Three days of data and a stray key, two dates per page: two pages. *)
Lemma all_pages_cover_witness :
  let keys := ["pre-open-market/2024-09-24.csv"; "pre-open-market/2024-09-25.csv";
               "nse-preopen/2024-09-26/preopen_20240926.csv";
               "pre-open-market/2024-09-23.csv"] in
  "2024-09-23" ∈ Routes.page_dates keys 2 1 ++ Routes.page_dates keys 2 2 /\
  NoDup (Routes.page_dates keys 2 1 ++ Routes.page_dates keys 2 2).
Proof.
  intros keys.
  assert (Hfits : listing_fits keys) by (unfold listing_fits; simpl; lia).
  destruct (all_pages_cover keys 2 None
              {| Api.dates := ["2024-09-25"; "2024-09-24"]; Api.totalCount := 3;
                 Api.page := 1; Api.limit := 2; Api.totalPages := 2 |} Hfits)
    as (_ & Hall & Hnodup & _); [lia|reflexivity|].
  split; [|exact Hnodup].
  refine (Hall "2024-09-23" eq_refl _). here 3%nat.
Defined.

(** With more than 1000 keys under the prefix the pages miss a day: of
    the first days of the years 0000 to 1000, the listing has the first
    1000, and the day of the year 1000, the newest, is on no page. *)
Example listing_cut_at_1000 :
  let keys :=
    (fun k => "pre-open-market/" +:+ Js.pad_digits 4 (Z.of_nat k) +:+ "-01-01.csv")
      <$> seq 0 1001 in
  ~ listing_fits keys /\
  Routes.download_key "1000-01-01" ∈ keys /\
  exists r,
    Api.list_dates (Some keys) None (Some 1000) = Api.json (Api.DatesBody r) 200 /\
    Api.totalCount r = 1000 /\ Api.totalPages r = 1 /\
    ("1000-01-01" ∉ Api.dates r) /\ head (Api.dates r) = Some "0999-01-01".
Proof.
  intros keys. split_and!.
  - unfold listing_fits. vm_compute. lia.
  - apply list_elem_of_fmap. exists 1000%nat. split; [reflexivity|].
    apply elem_of_seq. lia.
  - eexists. split; [reflexivity|].
    split_and!; [by vm_compute..| |by vm_compute].
    apply (bool_decide_unpack _). by vm_compute.
Qed.

(** X8. A page after the last one is answered with 200 and no dates (for
    a positive limit); it is not an error. *)
Theorem page_past_end_empty (keys : list string) (limit : Z) (p : nat) :
  0 < limit ->
  Api.ceil_div
    (Z.of_nat (length (Api.sorted_dates (Api.list_objects keys Api.PREFIX))))
    limit < Z.of_nat p ->
  exists r,
    Api.list_dates (Some keys) (Some (Z.of_nat p)) (Some limit) =
      Api.json (Api.DatesBody r) 200 /\
    Api.dates r = [] /\
    Api.totalPages r < Api.page r.
Proof.
  intros Hlimit Hp.
  pose proof (ceil_div_spec
    (Z.of_nat (length (Api.sorted_dates (Api.list_objects keys Api.PREFIX))))
    limit Hlimit) as Hceil.
  destruct p as [|p]; [nia|].
  pose proof (page_dates_window keys limit p Hlimit) as Hpage.
  assert (Hl : Api.or_default (Some limit) 10 = limit).
  { unfold Api.or_default.
    by replace (limit =? 0) with false by (symmetry; apply Z.eqb_neq; lia). }
  assert (Hq : Api.or_default (Some (Z.of_nat (S p))) 1 = Z.of_nat (S p)) by done.
  unfold Routes.page_dates, Routes.response_dates in Hpage.
  unfold Api.list_dates in Hpage |- *. rewrite Hl, Hq in Hpage |- *.
  eexists. split; [reflexivity|].
  cbn [Api.body Api.json Api.dates Api.totalPages Api.page] in Hpage |- *.
  split; [|lia].
  rewrite Hpage. rewrite drop_ge; [by rewrite take_nil|].
  rewrite <- (Nat2Z.id p), <- Z2Nat.inj_mul by lia. nia.
Qed.

(** Three days of data, two dates per page: the third page. *)
Lemma page_past_end_empty_witness :
  let keys := ["pre-open-market/2024-09-24.csv"; "pre-open-market/2024-09-25.csv";
               "pre-open-market/2024-09-23.csv"] in
  exists r,
    Api.list_dates (Some keys) (Some 3) (Some 2) = Api.json (Api.DatesBody r) 200 /\
    Api.dates r = [] /\ Api.totalPages r < Api.page r.
Proof.
  intros keys. apply (page_past_end_empty keys 2 3); [lia|].
  vm_compute. reflexivity.
Defined.

(** X9. A day stored under [pre-open-market/DATE.csv] is served by both
    routes: the download route answers 200 with the text of that object
    and the CSV headers, and the list route has the date among its dates
    (when the listing of the prefix fits in one answer of the store). *)
Theorem stored_day_served (objects : gmap string string) (date csv : string) :
  Api.is_date date = true ->
  listing_complete objects ->
  objects !! Routes.download_key date = Some csv ->
  Routes.download_file (Some objects) date =
    Routes.CsvFile 200
      [("Content-Type", "text/csv");
       ("Content-Disposition",
        "attachment; filename=" +:+ Routes.QUOTE +:+ date +:+ ".csv" +:+ Routes.QUOTE)]
      csv /\
  date ∈ Routes.all_dates objects.
Proof.
  intros Hdate Hcomplete Hget. split.
  - unfold Routes.download_file. by rewrite Hget.
  - unfold Routes.all_dates. apply sorted_dates_elem.
    exists (Routes.download_key date). split.
    + apply list_objects_complete; [done| |apply prefix_download_key].
      apply object_keys_elem. by exists csv.
    + by apply match_date_download_key.
Qed.

(** A bucket with one day of data. *)
Lemma stored_day_served_witness :
  let objects : gmap string string :=
    {[ "pre-open-market/2024-09-24.csv" := "symbol,price" ]} in
  Routes.download_file (Some objects) "2024-09-24" =
    Routes.CsvFile 200
      [("Content-Type", "text/csv");
       ("Content-Disposition",
        "attachment; filename=" +:+ Routes.QUOTE +:+ "2024-09-24.csv" +:+ Routes.QUOTE)]
      "symbol,price" /\
  "2024-09-24" ∈ Routes.all_dates objects.
Proof.
  intros objects.
  apply (stored_day_served objects "2024-09-24" "symbol,price").
  - reflexivity.
  - unfold listing_complete. etransitivity; [apply length_filter|].
    unfold Routes.object_keys. rewrite merge_sort_Permutation, length_fmap.
    unfold objects. rewrite map_to_list_singleton. simpl. lia.
  - apply lookup_singleton_eq.
Defined.

(** X10. Nothing the scraper stores is served by the API: in a bucket
    whose keys are all storage keys of uploads, the list route finds no
    date and the download route answers 404 for every date. *)
Theorem scraper_uploads_not_served (objects : gmap string string)
    (query_page query_limit : option Z) (date : string) :
  written_by_scraper objects ->
  (exists r,
     Api.list_dates (Some (Routes.object_keys objects)) query_page query_limit =
       Api.json (Api.DatesBody r) 200 /\
     Api.dates r = [] /\ Api.totalCount r = 0 /\ Api.totalPages r = 0) /\
  Routes.download_file (Some objects) date =
    Routes.JsonResponse
      (Api.json (Api.ErrorBody "File not found for the specified date") 404).
Proof.
  intros Hscraper. split.
  - assert (Hnone : Api.list_objects (Routes.object_keys objects) Api.PREFIX = []).
    { unfold Api.list_objects. rewrite filter_none; [done|].
      intros key Hkey%object_keys_elem.
      destruct (Hscraper key Hkey) as (now & fileName & ->).
      by rewrite storage_key_not_listed. }
    unfold Api.list_dates. rewrite Hnone.
    change (Api.sorted_dates []) with (@nil string).
    eexists. split; [reflexivity|].
    cbn [Api.dates Api.totalCount Api.totalPages length Z.of_nat].
    split_and!; [|done|].
    + unfold Api.slice. by rewrite drop_nil, take_nil.
    + unfold Api.ceil_div. cbn [Z.opp]. by rewrite Zdiv_0_l.
  - unfold Routes.download_file.
    destruct (objects !! Routes.download_key date) as [csv|] eqn:Hget; [|done].
    destruct (Hscraper (Routes.download_key date)) as (now & fileName & Heq);
      [by exists csv|].
    by apply storage_key_not_download_key in Heq.
Qed.

(** A bucket with one upload of the scraper. *)
Lemma scraper_uploads_not_served_witness :
  let objects : gmap string string :=
    {[ storage_key 1727149200000 "preopen_20240924.csv" := "symbol,price" ]} in
  Routes.download_file (Some objects) "2024-09-24" =
    Routes.JsonResponse
      (Api.json (Api.ErrorBody "File not found for the specified date") 404).
Proof.
  intros objects.
  apply (scraper_uploads_not_served objects None None "2024-09-24").
  intros key [csv Hget]. apply lookup_singleton_Some in Hget as [<- _].
  by eexists _, _.
Defined.

(** ** The date folder of the scraper and the dates of the API *)

Section DateFolder.

Ltac div_lia := Z.to_euclidean_division_equations; lia.

Lemma is_digit_digit_char d : is_digit (Js.digit_char d) = true.
Proof. unfold Js.digit_char. by repeat case_match. Qed.

(** Between 1970 and 9999 the year has four digits. *)
Lemma civil_from_days_four_digits z :
  0 <= z <= 2932896 ->
  four_digit_year (Js.civil_from_days z).1.1 = true.
Proof.
  intros Hz. unfold Js.civil_from_days, four_digit_year.
  set (z0 := z + 719468).
  set (era := z0 / 146097).
  set (doe := z0 - era * 146097).
  assert (Hdoe : 0 <= doe <= 146096) by (subst doe era; div_lia).
  assert (Hera : 4 <= era <= 24) by (subst era z0; div_lia).
  assert (Hlast : era = 24 -> doe <= 146036) by (subst doe era z0; div_lia).
  clearbody doe era.
  set (yoe := (doe - doe / 1460 + doe / 36524 - doe / 146096) / 365).
  assert (Hyoe : 0 <= yoe <= 399) by (subst yoe; div_lia).
  set (doy := doe - (365 * yoe + yoe / 4 - yoe / 100)).
  assert (Hdoy : 0 <= doy <= 365) by (subst doy yoe; div_lia).
  assert (Hend : era = 24 -> yoe = 399 -> doy <= 305)
    by (subst doy yoe; div_lia).
  clearbody doy yoe.
  set (mp := (5 * doy + 2) / 153).
  assert (Hmp : 0 <= mp <= 11) by (subst mp; div_lia).
  assert (Hmpend : doy <= 305 -> mp <= 9) by (subst mp; div_lia).
  clearbody mp.
  cbn [fst].
  apply andb_true_iff.
  destruct (mp <? 10) eqn:E; [apply Z.ltb_lt in E | apply Z.ltb_ge in E].
  - replace (mp + 3 <=? 2) with false by (symmetry; apply Z.leb_gt; lia).
    split; [apply Z.leb_le|apply Z.leb_le]; lia.
  - replace (mp - 9 <=? 2) with true by (symmetry; apply Z.leb_le; lia).
    split; [apply Z.leb_le|apply Z.leb_le]; lia.
Qed.

Lemma date_string_is_date now :
  0 <= now <= 253402300799999 -> is_date (Js.date_string now) = true.
Proof.
  intros Hnow.
  assert (Hday : 0 <= Js.Day now <= 2932896).
  { unfold Js.Day, Js.msPerDay. div_lia. }
  pose proof (civil_from_days_four_digits _ Hday) as Hyear.
  unfold Js.date_string.
  destruct (Js.civil_from_days (Js.Day now)) as [[y m] d]. cbn [fst] in Hyear.
  unfold Js.year_string. unfold four_digit_year in Hyear. rewrite Hyear.
  cbn [Js.pad_digits]. rewrite !string_app_cons.
  repeat match goal with
         | |- context ["" +:+ ?s] => change ("" +:+ s) with s
         end.
  cbn [is_date]. by rewrite !is_digit_digit_char.
Qed.

End DateFolder.

(** X11. From 1970 to the end of the year 9999, the folder under which
    the scraper files an upload is named by a date as the API writes
    them: the storage key is [nse-preopen/DATE/fileName] for a [DATE] that
    the download route accepts and that the list route reads off the key
    [pre-open-market/DATE.csv]. *)
Theorem date_folder_is_api_date (now : Z) (fileName : string) :
  0 <= now <= 253402300799999 ->
  exists date,
    storage_key now fileName = "nse-preopen/" +:+ date +:+ "/" +:+ fileName /\
    is_date date = true /\
    match_date (Routes.download_key date) = Some date.
Proof.
  intros Hnow. exists (Js.date_string now).
  pose proof (date_string_is_date now Hnow) as Hdate.
  split_and!; [apply storage_key_eq | done | by apply match_date_download_key].
Qed.

(** An upload of the 24th of September 2024. *)
Lemma date_folder_is_api_date_witness :
  exists date,
    storage_key 1727149200400 "preopen_20240924.csv" =
      "nse-preopen/" +:+ date +:+ "/preopen_20240924.csv" /\
    is_date date = true.
Proof.
  destruct (date_folder_is_api_date 1727149200400 "preopen_20240924.csv")
    as (date & Hkey & Hdate & _); [lia|].
  exists date. split; [exact Hkey|exact Hdate].
Defined.

(** ** The run, case by case *)

(** X12. The artifact is stored exactly when every step up to the answer
    of the store succeeds: a successful [send] is on the trace of a run if
    and only if the session is opened, every call up to [saveAs] returns,
    the button is visible, the download comes, both credentials are set,
    the file is read and the store accepts the object. *)
Theorem stored_iff_every_step (w : World) :
  existsb is_stored (trace (run w)) = every_step_succeeds w.
Proof.
  unfold every_step_succeeds, download_saved, reaches_button, session_opened,
    credentials_present.
  run_cases w ltac:(reflexivity).
Qed.

Section Classification.

Lemma completed_bool w :
  match run_outcome (trace (run w)) with Completed => true | _ => false end =
  every_step_succeeds w && (shot_after_ok w || shot_error_state_ok w).
Proof.
  unfold every_step_succeeds, download_saved, reaches_button, session_opened,
    credentials_present.
  run_cases w ltac:(reflexivity).
Qed.

End Classification.

(** X13. A run is [Completed] exactly when every step up to the answer
    of the store succeeds and the capture after the download, or else the
    capture of the inner handler, is taken. When both captures fail after
    a successful upload, the error reaches the outer handler and the run
    is a [FatalFailure] although the artifact is stored. *)
Theorem run_completed_iff (w : World) :
  run_outcome (trace (run w)) = Completed <->
  every_step_succeeds w = true /\
  (shot_after_ok w = true \/ shot_error_state_ok w = true).
Proof.
  pose proof (completed_bool w) as H.
  rewrite <- orb_true_iff, <- andb_true_iff, <- H.
  by destruct (run_outcome (trace (run w))).
Qed.

(** The upload succeeds and the two captures after it fail. *)
Example stored_and_fatal :
  let w := set_shots true false false true good_world in
  existsb is_stored (trace (run w)) = true /\
  run_outcome (trace (run w)) = FatalFailure.
Proof. split; reflexivity. Qed.

(** ** The order of the stages *)

Section History.
Implicit Types (pre t : list event).

Lemma in_order_after_nil pre : in_order_after pre [].
Proof. intros i e R Hi. by rewrite lookup_nil in Hi. Qed.

Lemma in_order_after_app pre t1 t2 :
  in_order_after pre t1 -> in_order_after (pre ++ t1) t2 ->
  in_order_after pre (t1 ++ t2).
Proof.
  intros H1 H2 i e R Hi He.
  destruct (decide (i < length t1)%nat) as [Hlt|Hge].
  - rewrite lookup_app_l in Hi by done.
    destruct (H1 i e R Hi He) as (j & a & Hj & Ha & HR).
    exists j, a. split_and!; [done| |done].
    rewrite app_assoc. apply lookup_app_l_Some. done.
  - rewrite lookup_app_r in Hi by lia.
    destruct (H2 _ e R Hi He) as (j & a & Hj & Ha & HR).
    exists j, a. rewrite length_app in Hj.
    split_and!; [lia| |done]. by rewrite app_assoc.
Qed.

(** An event that needs nothing. *)
Lemma in_order_after_free pre e : enabled_by e = None -> in_order_after pre [e].
Proof.
  intros He [|i] e' R Hi HR; simpl in Hi; [|by rewrite lookup_nil in Hi].
  injection Hi as <-. congruence.
Qed.

(** An event that has what it needs in the history. *)
Lemma in_order_after_found pre e a :
  (forall R, enabled_by e = Some R -> R a) -> a ∈ pre -> in_order_after pre [e].
Proof.
  intros He Ha [|i] e' R Hi HR; simpl in Hi; [|by rewrite lookup_nil in Hi].
  injection Hi as <-.
  apply list_elem_of_lookup in Ha as [j Hj].
  exists j, a. split_and!.
  - apply lookup_lt_Some in Hj. lia.
  - by apply lookup_app_l_Some.
  - by apply He.
Qed.

Lemma in_order_after_bind {A B} pre (m : M A) (k : A -> M B) :
  in_order_after pre (trace m) ->
  (forall a, outcome m = Ok a -> in_order_after (pre ++ trace m) (trace (k a))) ->
  in_order_after pre (trace (Eff.bind m k)).
Proof.
  intros Hm Hk. rewrite trace_bind. apply in_order_after_app; [done|].
  destruct (outcome m); [by apply Hk | apply in_order_after_nil].
Qed.

Lemma in_order_after_try_catch {A} pre (m : M A) (h : string -> M A) :
  in_order_after pre (trace m) ->
  (forall e, outcome m = Throw e -> in_order_after (pre ++ trace m) (trace (h e))) ->
  in_order_after pre (trace (try_catch m h)).
Proof.
  intros Hm Hh. rewrite trace_try_catch. apply in_order_after_app; [done|].
  destruct (outcome m); [apply in_order_after_nil | by apply Hh].
Qed.

Lemma in_order_after_try_finally {A} pre (m : M A) (fin : M unit) :
  in_order_after pre (trace m) -> in_order_after (pre ++ trace m) (trace fin) ->
  in_order_after pre (trace (try_finally m fin)).
Proof. intros. rewrite trace_try_finally. by apply in_order_after_app. Qed.

Lemma in_order_after_if {A} pre (b : bool) (m1 m2 : M A) :
  in_order_after pre (trace m1) -> in_order_after pre (trace m2) ->
  in_order_after pre (trace (if b then m1 else m2)).
Proof. by destruct b. Qed.

Lemma in_order_after_call_val {A} pre o (r : option A) :
  (forall ok, in_order_after pre [Call o ok]) ->
  in_order_after pre (trace (call_val o r)).
Proof. intros H. destruct r; apply H. Qed.

Lemma in_order_start t : in_order_after [] t -> in_order t.
Proof.
  intros H i e R Hi He. destruct (H i e R Hi He) as (j & a & Hj & Ha & HR).
  by exists j, a.
Qed.

End History.

(** What the success of a call tells about the answer of the world. *)
Ltac learn H :=
  lazymatch type of H with
  | outcome (call _ true) = Ok _ => clear H
  | outcome (call _ ?ok) = Ok _ => destruct ok; [clear H|discriminate H]
  | outcome (call_val _ ?r) = Ok _ =>
      destruct r; [injection H as <-|discriminate H]
  | _ => clear H
  end.

(** Looks a call up in the history. *)
Ltac in_history :=
  lazymatch goal with
  | |- _ ∈ _ ++ _ =>
      apply elem_of_app; first [right; by left | left; in_history]
  end.

Ltac history_leaf :=
  first
    [ by apply in_order_after_free
    | eapply in_order_after_found;
      [intros ? [= <-]; first [reflexivity | eexists; reflexivity] | in_history] ].

Ltac history_step :=
  lazymatch goal with
  | |- in_order_after _ (trace (Eff.bind _ _)) =>
      apply in_order_after_bind;
      [|let a := fresh "a" in let H := fresh "H" in intros a H; learn H]
  | |- in_order_after _ (trace (try_catch _ _)) =>
      apply in_order_after_try_catch; [|intros ? _]
  | |- in_order_after _ (trace (try_finally _ _)) =>
      apply in_order_after_try_finally
  | |- in_order_after _ (trace (if _ then _ else _)) => apply in_order_after_if
  | |- in_order_after _ (trace (ret _)) => apply in_order_after_nil
  | |- in_order_after _ (trace (call_val _ _)) =>
      apply in_order_after_call_val; intros ?; history_leaf
  | |- in_order_after _ (trace _) => history_leaf
  end.

Section Stages.

Lemma run_sends_what_was_read w : sends_what_was_read w (trace (run w)).
Proof.
  intros command ok. revert command ok.
  enough (Forall (fun e => forall command ok, e = Call (Send command) ok ->
                    file_content w = Some (Eff.Body command)) (trace (run w))) as Hall.
  { intros command ok Hin. rewrite Forall_forall in Hall. by eapply Hall. }
  unfold run, guarded, release, extract, error_handler, select_and_download,
    selector_handler, capture_and_archive, uploadToR2.
  modular_walk; apply Forall_singleton; intros command ok' Heq;
    try discriminate Heq.
  injection Heq as <- _.
  match goal with
  | H : outcome (call_val (ReadFile _) (file_content w)) = Ok _ |- _ =>
      destruct (file_content w); [|discriminate H]; by injection H as ->
  end.
Qed.

End Stages.

(** X14. The stages of the pipeline run in order, each after the success
    of the one it needs: in every run the download event is awaited after
    a click on the trigger that returned, the download is saved after the
    event came, the file is read after a save to the same path that
    returned, and an object is sent after a read that returned; the body
    of the object is the content the read gave. *)
Theorem pipeline_in_order (w : World) :
  in_order (trace (run w)) /\ sends_what_was_read w (trace (run w)).
Proof.
  split; [|apply run_sends_what_was_read].
  apply in_order_start.
  unfold run, guarded, release, extract, error_handler, select_and_download,
    selector_handler, capture_and_archive, uploadToR2.
  repeat history_step.
Qed.

(** The run in which everything succeeds: the save, the read and the
    send, one after the other. *)
Example good_world_stages :
  let path := "downloads/preopen_20240924.csv" in
  trace (run good_world) !! 28%nat = Some (Call (SaveAs path) true) /\
  trace (run good_world) !! 31%nat = Some (Call (ReadFile path) true) /\
  exists command, trace (run good_world) !! 32%nat = Some (Call (Send command) true).
Proof. split_and!; [reflexivity..|by eexists]. Qed.


(** ** How a run ends *)

Section RunResults.

Lemma outcome_run w :
  outcome (run w) =
  if session_opened w && close_ok w then Ok tt else Throw "call failed".
Proof.
  destruct (session_opened w) eqn:Hopen.
  - destruct (run_opened w Hopen) as [_ ->]. unfold release.
    destruct (close_ok w); [apply outcome_guarded|done].
  - unfold session_opened in Hopen. unfold run.
    destruct (dirs_ok w), (launch_ok w), (newContext_ok w), (newPage_ok w);
      try discriminate Hopen; reflexivity.
Qed.


End RunResults.



Section ProcessEnds.

(** The listener is left without a handler exactly when the run gets to
    the click on the trigger and the click throws. *)
Lemma listener_abandoned_iff w :
  Script.listener_abandoned (trace (run w)) = click_fails w.
Proof.
  unfold Script.listener_abandoned, click_fails, reaches_button, session_opened.
  run_cases w ltac:(reflexivity).
Qed.

Lemma script_result w started finished :
  outcome (Script.script w started finished) =
    Ok (if session_opened w && close_ok w then 0 else 1) /\
  trace (Script.script w started finished) =
    Log ["Starting NSE scraper at " +:+ Js.toISOString started] ::
    trace (run w) ++
    [if session_opened w && close_ok w
     then Log ["NSE scraper finished at " +:+ Js.toISOString finished]
     else LogError ["Fatal error:"; "call failed"]].
Proof.
  unfold Script.script.
  rewrite outcome_bind, trace_bind. cbn [outcome log snd trace fst app].
  rewrite outcome_try_catch, trace_try_catch, !outcome_bind, !trace_bind.
  rewrite outcome_run.
  destruct (session_opened w && close_ok w);
    (split; [reflexivity|]);
    cbn [trace outcome log log_error ret Eff.bind fst snd app];
    by rewrite !app_nil_r.
Qed.

End ProcessEnds.

(** X17. The process ends with code 0 exactly when the session is
    opened, the browser is closed, and the click on the download trigger
    did not throw. It ends with code 1 when the session could not be
    opened or the browser could not be closed (the script reports the
    fatal error and exits), and also when the click on the trigger threw:
    the promise of the download listener, made before the click, is then
    never awaited, and its rejection ends the process. In every other
    case the code is 0 whatever failed in between, and the script wrote
    its start line, the lines of the run and the line of the end. *)
Theorem exit_code_iff (w : World) (started finished : Z) :
  Script.exit_code (Script.main w started finished) =
    (if session_opened w && close_ok w && negb (click_fails w) then 0 else 1) /\
  (click_fails w = true ->
   Script.main w started finished = Script.UnhandledRejection 1) /\
  (click_fails w = false ->
   Script.main w started finished =
     Script.Exited (if session_opened w && close_ok w then 0 else 1)
       (Log ["Starting NSE scraper at " +:+ Js.toISOString started] ::
        trace (run w) ++
        [if session_opened w && close_ok w
         then Log ["NSE scraper finished at " +:+ Js.toISOString finished]
         else LogError ["Fatal error:"; "call failed"]])).
Proof.
  unfold Script.main. rewrite listener_abandoned_iff.
  destruct (script_result w started finished) as [-> ->].
  destruct (click_fails w); cbn [Script.exit_code negb];
    rewrite ?andb_false_r, ?andb_true_r; (split_and!; [done|try done..]).
Qed.

(** A run whose navigation fails is a [FatalFailure], and the process
    still ends with code 0; a run whose click on the trigger throws is a
    [PartialFailure], and the process ends with code 1. *)
Example exit_codes :
  let fatal := sample_world (Some "secret") false true "preopen_20240924.csv" in
  let no_click := fail_click good_world in
  (run_outcome (trace (run fatal)) = FatalFailure /\
   Script.exit_code (Script.main fatal 1727149190000 1727149260000) = 0) /\
  (run_outcome (trace (run no_click)) = PartialFailure /\
   Script.main no_click 1727149190000 1727149260000 = Script.UnhandledRejection 1).
Proof. split_and!; reflexivity. Qed.

(** ** Where the download is saved *)

Section DownloadPath.

Lemma split_on_plain name :
  string_all no_slash name = true -> Path.split_on "/" name = [name].
Proof.
  induction name as [|a name IH]; [done|].
  simpl. intros [Ha Hname]%andb_true_iff.
  unfold no_slash in Ha. apply negb_true_iff in Ha. rewrite Ha.
  by rewrite IH.
Qed.

Lemma join_plain name :
  plain_name name = true ->
  Path.join DOWNLOADS_PATH name = "downloads/" +:+ name /\
  Path.basename (Path.join DOWNLOADS_PATH name) = name.
Proof.
  unfold plain_name. rewrite !andb_true_iff, !negb_true_iff.
  intros [[[Hempty Hdot] Hdots] Hslash].
  assert (Hjoin : Path.join DOWNLOADS_PATH name = "downloads/" +:+ name).
  { unfold Path.join. rewrite Hempty.
    change (DOWNLOADS_PATH +:+ "/" +:+ name)
      with (String "." (String "/" ("downloads/" +:+ name))).
    change ("downloads/" +:+ name)
      with (String "d" (String "o" (String "w" (String "n" (String "l"
             (String "o" (String "a" (String "d" (String "s"
                (String "/" name)))))))))).
    cbn [Path.split_on Ascii.eqb Bool.eqb]. rewrite split_on_plain by done.
    cbn [Path.normalize_go String.eqb Ascii.eqb Bool.eqb orb].
    rewrite Hempty, Hdot, Hdots. reflexivity. }
  split; [done|]. rewrite Hjoin. unfold Path.basename.
  change ("downloads/" +:+ name)
    with (String "d" (String "o" (String "w" (String "n" (String "l"
           (String "o" (String "a" (String "d" (String "s"
              (String "/" name)))))))))).
  cbn [Path.split_on Ascii.eqb Bool.eqb]. by rewrite split_on_plain.
Qed.

Lemma pretty_N_go_plain x : forall s,
  string_all no_slash s = true -> string_all no_slash (pretty_N_go x s) = true.
Proof.
  induction (N.lt_wf_0 x) as [x _ IH]; intros s Hs.
  assert (x = 0 \/ 0 < x)%N as [->|Hx] by lia; [by rewrite pretty_N_go_0|].
  rewrite pretty_N_go_step by done. apply IH; [by apply N.div_lt|].
  simpl. rewrite Hs, andb_true_r.
  unfold pretty_N_char. by repeat case_match.
Qed.

Lemma pretty_Z_plain (n : Z) : string_all no_slash (pretty n) = true.
Proof.
  assert (HN : forall x : N, string_all no_slash (pretty x) = true).
  { intros x. unfold pretty, pretty_N. case_decide; [done|].
    by apply pretty_N_go_plain. }
  destruct n as [|p|p]; [done|apply HN|].
  change (string_all no_slash ("-" +:+ pretty (Npos p)) = true).
  rewrite string_all_app. by rewrite HN.
Qed.

(** The name the program makes up is a plain name. *)
Lemma synthesized_name_plain now : plain_name (synthesized_name now) = true.
Proof.
  unfold plain_name, synthesized_name.
  rewrite !string_all_app, pretty_Z_plain. reflexivity.
Qed.

(** Every save of a run is to the path the program builds from the
    download. *)
Lemma run_saves w :
  Forall (fun e => forall path ok, e = Call (SaveAs path) ok ->
            exists suggestedFilename,
              download w = Some suggestedFilename /\
              path = Path.join DOWNLOADS_PATH (saved_name w suggestedFilename))
    (trace (run w)).
Proof.
  unfold run, guarded, release, extract, error_handler, select_and_download,
    selector_handler, capture_and_archive, uploadToR2.
  modular_walk; apply Forall_singleton; intros path ok' Heq;
    try discriminate Heq.
  injection Heq as <- _.
  match goal with
  | H : outcome (call_val (AwaitEvent _) (download w)) = Ok ?s |- _ =>
      exists s; destruct (download w); [|discriminate H];
      by injection H as ->
  end.
Qed.

End DownloadPath.

(** X18. The download is saved in the folder of the downloads under the
    name the program chose: when the download suggests no name, or a name
    of one plain segment, every [saveAs] of the run is to
    [downloads/NAME], and the base name of that path is [NAME]. *)
Theorem saved_under_downloads (w : World) (suggested path : string) (ok : bool) :
  Call (SaveAs path) ok ∈ trace (run w) ->
  download w = Some suggested ->
  suggested = "" \/ plain_name suggested = true ->
  path = "downloads/" +:+ saved_name w suggested /\
  Path.basename path = saved_name w suggested.
Proof.
  intros Hin Hdownload Hname.
  pose proof (run_saves w) as Hall. rewrite Forall_forall in Hall.
  destruct (Hall _ Hin path ok eq_refl) as (s & Hs & ->).
  rewrite Hdownload in Hs. injection Hs as <-.
  apply join_plain. unfold saved_name, Js.or_else.
  destruct Hname as [->|Hplain]; [apply synthesized_name_plain|].
  destruct (String.eqb suggested ""); [apply synthesized_name_plain|done].
Qed.

(** The save of the run in which everything succeeds. *)
Lemma saved_under_downloads_witness :
  Path.basename "downloads/preopen_20240924.csv" = "preopen_20240924.csv".
Proof.
  refine (proj2 (saved_under_downloads good_world "preopen_20240924.csv"
                   "downloads/preopen_20240924.csv" true _ eq_refl _)).
  - here 28%nat.
  - by right.
Defined.

(** A suggested name with [..] segments takes the file out of the
    folder of the downloads. *)
Example join_leaves_downloads :
  Path.join DOWNLOADS_PATH "../../etc/cron.d/job" = "../etc/cron.d/job".
Proof. reflexivity. Qed.

(** ** The scraper before and after the upload was added *)

Section Versions.

Lemma same_bind {A B} (m m' : M A) (k k' : A -> M B) :
  same_steps m m' -> (forall a, same_steps (k a) (k' a)) ->
  same_steps (Eff.bind m k) (Eff.bind m' k').
Proof.
  intros [Ht Ho] Hk. unfold same_steps.
  rewrite !trace_bind, !outcome_bind, filter_app, !fmap_app, Ht, <- Ho.
  destruct (outcome m) as [a|e].
  - destruct (Hk a) as [-> ->]. done.
  - by rewrite filter_nil.
Qed.

Lemma same_try_catch {A} (m m' : M A) (h h' : string -> M A) :
  same_steps m m' -> (forall e, same_steps (h e) (h' e)) ->
  same_steps (try_catch m h) (try_catch m' h').
Proof.
  intros [Ht Ho] Hh. unfold same_steps.
  rewrite !trace_try_catch, !outcome_try_catch, filter_app, !fmap_app, Ht, <- Ho.
  destruct (outcome m) as [a|e].
  - by rewrite filter_nil.
  - destruct (Hh e) as [-> ->]. done.
Qed.

Lemma same_try_finally {A} (m m' : M A) (fin fin' : M unit) :
  same_steps m m' -> same_steps fin fin' ->
  same_steps (try_finally m fin) (try_finally m' fin').
Proof.
  intros [Ht Ho] [Ht' Ho']. unfold same_steps.
  rewrite !trace_try_finally, !outcome_try_finally, filter_app, !fmap_app.
  by rewrite Ht, Ht', Ho, Ho'.
Qed.

Lemma same_if {A} (b : bool) (m1 m2 m1' m2' : M A) :
  same_steps m1 m1' -> same_steps m2 m2' ->
  same_steps (if b then m1 else m2) (if b then m1' else m2').
Proof. by destruct b. Qed.

Lemma same_call o o' ok :
  without_goto_options (retimed (Call o ok)) = without_goto_options (Call o' ok) ->
  is_archiver (Call o' ok) = false ->
  same_steps (call o ok) (call o' ok).
Proof.
  intros Hr Ha. split; [|done]. unfold call, trace. cbn [fst fmap list_fmap].
  rewrite filter_cons_True by done. cbn [fmap list_fmap filter list_filter].
  by rewrite Hr.
Qed.

Lemma same_call_val {A} o (r : option A) :
  (forall ok, retimed (Call o ok) = Call o ok /\ is_archiver (Call o ok) = false) ->
  same_steps (call_val o r) (call_val o r).
Proof.
  intros H. split; [|done].
  destruct r; unfold call_val, trace; cbn [fst fmap list_fmap];
    rewrite filter_cons_True by apply H; cbn [fmap list_fmap filter list_filter];
    by rewrite (proj1 (H _)).
Qed.

Lemma same_log args :
  is_archiver (Log args) = false -> same_steps (log args) (log args).
Proof.
  intros Ha. split; [|done]. unfold log, trace. cbn [fst fmap list_fmap].
  by rewrite filter_cons_True by done.
Qed.

Lemma same_log_error args :
  is_archiver (LogError args) = false ->
  same_steps (log_error args) (log_error args).
Proof.
  intros Ha. split; [|done]. unfold log_error, trace. cbn [fst fmap list_fmap].
  by rewrite filter_cons_True by done.
Qed.

Lemma prefix_app p s : String.prefix p (p +:+ s) = true.
Proof.
  induction p as [|a p IH]; [by destruct s|].
  rewrite string_app_cons. simpl. by destruct (ascii_dec a a).
Qed.

(** All that [uploadToR2] leaves on the trace is the Archiver's. *)
Lemma uploadToR2_archiver w filePath fileName :
  Forall (fun e => is_archiver e = true) (trace (uploadToR2 w filePath fileName)).
Proof.
  assert (Hup : is_archiver (Log [UPLOADING fileName]) = true).
  { unfold is_archiver, UPLOADING. by rewrite prefix_app, orb_true_r. }
  assert (Hdone : forall key,
            is_archiver (Log ["Successfully uploaded to R2: " +:+ key]) = true).
  { intros key. unfold is_archiver. by rewrite prefix_app, orb_true_r. }
  destruct (credentials_present w) eqn:E.
  - rewrite uploadToR2_attempt by done.
    destruct (file_content w); [destruct (send_ok w)|];
      cbv zeta; unfold trace; cbn [fst];
      repeat first [apply Forall_nil_2 | apply Forall_cons_2; [done|]].
  - rewrite uploadToR2_skip by done. unfold trace. cbn [fst].
    repeat first [apply Forall_nil_2 | apply Forall_cons_2; [done|]].
Qed.

(** The call of [uploadToR2] in front of a program changes nothing
    else: it never throws. *)
Lemma same_upload {A} w filePath fileName (m : M A) (k : bool -> M A) :
  (forall b, same_steps m (k b)) ->
  same_steps m (Eff.bind (uploadToR2 w filePath fileName) k).
Proof.
  intros Hk. destruct (uploadToR2_returns w filePath fileName) as [b Hb].
  destruct (Hk b) as [Ht Ho]. unfold same_steps.
  rewrite trace_bind, outcome_bind, Hb, filter_app, Ht, Ho.
  split; [|done].
  replace (filter (fun e => is_archiver e = false)
             (trace (uploadToR2 w filePath fileName))) with (@nil event); [done|].
  symmetry. apply filter_none. intros e He.
  pose proof (uploadToR2_archiver w filePath fileName) as Hall.
  rewrite Forall_forall in Hall. rewrite (Hall e He). done.
Qed.

End Versions.

Ltac same_step :=
  cbv zeta;
  lazymatch goal with
  | |- same_steps _ (Eff.bind (uploadToR2 _ _ _) _) =>
      apply same_upload; intros ?
  | |- same_steps (Eff.bind _ _) (Eff.bind _ _) => apply same_bind; [|intros ?]
  | |- same_steps (try_catch _ _) (try_catch _ _) =>
      apply same_try_catch; [|intros ?]
  | |- same_steps (try_finally _ _) (try_finally _ _) => apply same_try_finally
  | |- same_steps (if _ then _ else _) (if _ then _ else _) => apply same_if
  | |- same_steps (call _ _) (call _ _) => by apply same_call
  | |- same_steps (call_val _ _) (call_val _ _) => by apply same_call_val
  | |- same_steps (log _) (log _) => by apply same_log
  | |- same_steps (log_error _) (log_error _) => by apply same_log_error
  end.

(** X19. Adding the upload left the steps of the run as they were: in
    every world, the older script takes the steps of the newer one
    without what the Archiver leaves on the trace (the same calls with the
    same targets and answers and the same lines, in the same order) and
    ends as it does, up to the pause after the navigation (5000 ms, now
    8000) and the time allowed to the wait for the control (10000 ms, now
    15000). The options of [goto] are not compared; they differ. *)
Theorem upload_kept_the_steps (w : World) :
  (fun e => without_goto_options (retimed e)) <$> trace (Legacy.run w) =
    without_goto_options <$>
      filter (fun e => is_archiver e = false) (trace (run w)) /\
  outcome (Legacy.run w) = outcome (run w).
Proof.
  change (same_steps (Legacy.run w) (run w)).
  unfold Legacy.run, Legacy.extract, Legacy.select_and_download, Legacy.capture,
    run, guarded, release, extract, error_handler, select_and_download,
    selector_handler, capture_and_archive.
  repeat same_step.
Qed.

(** ** The probe of the home page *)

(** X20. The probe closes the browser exactly once when its page was
    opened, as its last call, whatever fails in between; what fails in
    between is reported on the error console, once, and is not thrown (the
    probe ends with an error only when the browser cannot be closed); the
    capture is taken exactly when every call before it returns. When the
    page cannot be opened the probe ends with an error and closes
    nothing. *)
Theorem probe_closes_and_swallows (w : Probe.World) :
  let tr := trace (Probe.run w) in
  if Probe.opened w
  then closes tr = 1%nat /\
       last_call tr = Some BrowserClose /\
       outcome (Probe.run w) =
         (if Probe.close_ok w then Ok tt else Throw "call failed") /\
       existsb is_captured tr = Probe.visited w /\
       count_events is_log_error tr = (if Probe.visited w then 0 else 1)%nat
  else closes tr = 0%nat /\ outcome (Probe.run w) = Throw "call failed".
Proof.
  destruct w as [launch context page goto [title|] settle shot close];
    destruct launch, context, page, goto, settle, shot, close;
    cbn; split_and!; reflexivity.
Qed.
